(** * buddy-app: the Secret Santa draw of [src/server/index.js]

    A shallow embedding of the server: the derangement generator, the
    token registry ([loadColleaguesWithTokens]), the assignment store
    (local JSON document or Supabase table) and the request handlers
    [POST /api/assign] and [POST /admin/reset], with the properties of
    the specification stated and settled over them. *)

From Stdlib Require Import Ascii String Arith Lia.
From stdpp Require Import base option list gmap strings pretty sorting.


(** ** Results of code that may throw *)

Inductive result (A : Type) : Type :=
| Return (a : A)
| Throw (message : string).
Arguments Return {A} a.
Arguments Throw {A} message.

(** ** The random source

    [Math.random()] yields a number in the half-open interval [0, 1).
    A draw is kept as the fraction [numer / (numer + slack + 1)]: every
    rational of [0, 1) has this form, and nothing outside has. *)

Record unit_draw : Type := { numer : nat; slack : nat }.

Definition denom (r : unit_draw) : nat := numer r + slack r + 1.

(** [Math.floor(r * m)] for a draw [r] and a non-negative integer [m].
    The product is the exact one; the rounded product of two doubles has
    its floor in the same range [0, m). *)
Definition Math_floor_mul (r : unit_draw) (m : nat) : nat :=
  (numer r * m) / denom r.

(** ** [derangement] (index.js, lines 61-71) *)

Definition failed_message : string := "Failed to create derangement"%string.

Definition max_tries : nat := 2000.

(** [[arr[i], arr[j]] = [arr[j], arr[i]]]: the right-hand side is read
    first, then [arr[i]] and [arr[j]] are written in that order.  Both
    indices are inside the array wherever [derangement] swaps (lemmas
    [Math_floor_mul_le] and [swap_in_range]); outside, the array is
    left as it is. *)
Definition swap (arr : list nat) (i j : nat) : list nat :=
  match arr !! j, arr !! i with
  | Some aj, Some ai => <[j := ai]> (<[i := aj]> arr)
  | _, _ => arr
  end.

(** [arr.every((v, i) => v !== i)], counting the index from [i]. *)
Fixpoint every_from (i : nat) (arr : list nat) : bool :=
  match arr with
  | [] => true
  | v :: rest => negb (Nat.eqb v i) && every_from (S i) rest
  end.

Definition every_not_index (arr : list nat) : bool := every_from 0 arr.

(** What one call leaves behind: the value returned or the error thrown,
    the number of shuffle-and-check attempts made, and the position
    reached in the stream of random draws. *)
Record run : Type := {
  outcome : result (list nat);
  attempts : nat;
  next_draw : nat
}.

Section Derangement.

(** The [k]-th call of [Math.random()]. *)
Variable Math_random : nat -> unit_draw.

(** [for (let i = n - 1; i > 0; i--) { j = ...; swap }], entered at [i]
    with [k] draws consumed so far. *)
Fixpoint shuffle (i : nat) (arr : list nat) (k : nat) : list nat * nat :=
  match i with
  | 0 => (arr, k)
  | S i' =>
      let j := Math_floor_mul (Math_random k) (S i' + 1) in
      shuffle i' (swap arr (S i') j) (S k)
  end.

(** [for (let tries = 0; tries < 2000; tries++)], with [budget]
    iterations left; the array is carried from one attempt to the
    next, as the source never resets it.  The inner loop starts at
    [n - 1]; for [n = 0] that is -1 in the source and 0 here, and the
    loop does nothing either way. *)
Fixpoint tries_loop (n budget tries : nat) (arr : list nat) (k : nat) : run :=
  match budget with
  | 0 => {| outcome := Throw failed_message; attempts := tries; next_draw := k |}
  | S budget' =>
      let '(arr', k') := shuffle (n - 1) arr k in
      if every_not_index arr'
      then {| outcome := Return arr'; attempts := S tries; next_draw := k' |}
      else tries_loop n budget' (S tries) arr' k'
  end.

(** [Array.from({ length: n }, (_, i) => i)] is [seq 0 n]. *)
Definition derangement (n : nat) (k : nat) : run :=
  tries_loop n max_tries 0 (seq 0 n) k.

(** The array and the stream position after [t] more shuffles. *)
Fixpoint shuffles (n t : nat) (arr : list nat) (k : nat) : list nat * nat :=
  match t with
  | 0 => (arr, k)
  | S t' => let '(arr', k') := shuffle (n - 1) arr k in shuffles n t' arr' k'
  end.

(** The array that attempt number [t] (counted from 0) checks. *)
Definition attempt_array (n t : nat) (k : nat) : list nat :=
  fst (shuffles n (S t) (seq 0 n) k).

End Derangement.

(** A permutation of [0, n) without fixed point. *)
Definition is_derangement (n : nat) (perm : list nat) : Prop :=
  perm ≡ₚ seq 0 n ∧ ∀ i v, perm !! i = Some v → v ≠ i.

(** Two sources used in examples: every draw 1/2, every draw 0. *)
Definition half : unit_draw := {| numer := 1; slack := 0 |}.
Definition zero : unit_draw := {| numer := 0; slack := 0 |}.


(** ** Data of the server *)

(** One entry of [colleagues.json]. *)
Record colleague : Type := {
  name : string;
  birthday : string;
  anniversary : string
}.

(** [{ ...p, token: state.tokens[p.name] }]. *)
Record person : Type := {
  who : colleague;
  token : string
}.

(** The columns of an assignment other than its key. *)
Record pairing : Type := {
  giver : string;
  receiver_token : string;
  receiver : string
}.

(** [{ token, giver, receiver_token, receiver }]. *)
Record row : Type := {
  r_token : string;
  r_pairing : pairing
}.

(** What the process can read and change.  The files are [None] while
    they do not exist; a file that exists holds what was last written
    ([JSON.parse] after [JSON.stringify] gives the value back).
    [data_dir] tells that the data directory has been made; the directory
    also exists whenever one of its three files does ([dir_exists]), and a
    write into a directory that does not exist throws.  [table] is the
    Supabase table [assignments], whose column [token] is unique (it is
    the conflict target of the upsert), hence a map from token to the
    other columns.  [db_error k] is the error with which the [k]-th
    request to Supabase comes back, if it does; [db_requests] counts the
    requests answered so far.  A request that comes back with an error has
    changed nothing in the table.  [generator_calls] is a ghost log of the
    arguments [derangement] was called with. *)
Record world : Type := {
  colleagues_json : option (list colleague);
  seed_json : option (list colleague);
  state_json : option (gmap string string);
  assignments_json : option (list row);
  table : gmap string pairing;
  uuids_used : nat;
  draws_used : nat;
  generator_calls : list nat;
  data_dir : bool;
  db_error : nat → option string;
  db_requests : nat
}.

Definition set_colleagues (v : option (list colleague)) (w : world) : world :=
  {| colleagues_json := v; seed_json := seed_json w;
     state_json := state_json w; assignments_json := assignments_json w;
     table := table w; uuids_used := uuids_used w;
     draws_used := draws_used w; generator_calls := generator_calls w;
     data_dir := data_dir w; db_error := db_error w;
     db_requests := db_requests w |}.

Definition set_state (v : option (gmap string string)) (u : nat) (w : world) : world :=
  {| colleagues_json := colleagues_json w; seed_json := seed_json w;
     state_json := v; assignments_json := assignments_json w;
     table := table w; uuids_used := u;
     draws_used := draws_used w; generator_calls := generator_calls w;
     data_dir := data_dir w; db_error := db_error w;
     db_requests := db_requests w |}.

Definition set_assignments (v : option (list row)) (w : world) : world :=
  {| colleagues_json := colleagues_json w; seed_json := seed_json w;
     state_json := state_json w; assignments_json := v;
     table := table w; uuids_used := uuids_used w;
     draws_used := draws_used w; generator_calls := generator_calls w;
     data_dir := data_dir w; db_error := db_error w;
     db_requests := db_requests w |}.

Definition set_table (v : gmap string pairing) (w : world) : world :=
  {| colleagues_json := colleagues_json w; seed_json := seed_json w;
     state_json := state_json w; assignments_json := assignments_json w;
     table := v; uuids_used := uuids_used w;
     draws_used := draws_used w; generator_calls := generator_calls w;
     data_dir := data_dir w; db_error := db_error w;
     db_requests := db_requests w |}.

Definition set_generator (k : nat) (calls : list nat) (w : world) : world :=
  {| colleagues_json := colleagues_json w; seed_json := seed_json w;
     state_json := state_json w; assignments_json := assignments_json w;
     table := table w; uuids_used := uuids_used w;
     draws_used := k; generator_calls := calls;
     data_dir := data_dir w; db_error := db_error w;
     db_requests := db_requests w |}.

Definition set_data_dir (v : bool) (w : world) : world :=
  {| colleagues_json := colleagues_json w; seed_json := seed_json w;
     state_json := state_json w; assignments_json := assignments_json w;
     table := table w; uuids_used := uuids_used w;
     draws_used := draws_used w; generator_calls := generator_calls w;
     data_dir := v; db_error := db_error w;
     db_requests := db_requests w |}.

Definition set_requests (n : nat) (w : world) : world :=
  {| colleagues_json := colleagues_json w; seed_json := seed_json w;
     state_json := state_json w; assignments_json := assignments_json w;
     table := table w; uuids_used := uuids_used w;
     draws_used := draws_used w; generator_calls := generator_calls w;
     data_dir := data_dir w; db_error := db_error w;
     db_requests := n |}.

(** [fs.existsSync] on a file, and on the data directory. *)
Definition exists_file {A : Type} (file : option A) : bool :=
  match file with
  | Some _ => true
  | None => false
  end.

Definition dir_exists (w : world) : bool :=
  exists_file (colleagues_json w) || exists_file (state_json w) ||
  exists_file (assignments_json w) || data_dir w.

(** ** Computations over the world that may throw *)

Definition M (A : Type) : Type := world → result A * world.

Definition ret {A : Type} (a : A) : M A := λ w, (Return a, w).

Definition throw {A : Type} (message : string) : M A := λ w, (Throw message, w).

Definition bindM {A B : Type} (c : M A) (k : A → M B) : M B :=
  λ w, match c w with
       | (Return a, w') => k a w'
       | (Throw m, w') => (Throw m, w')
       end.

Notation "x <- c ;; k" := (bindM c (λ x, k))
  (at level 200, c at level 99, right associativity).

Definition gets {A : Type} (f : world → A) : M A := λ w, (Return (f w), w).

Definition modify (f : world → world) : M unit := λ w, (Return tt, f w).

Definition lift {A : Type} (r : result A) : M A := λ w, (r, w).

(** [readJSON(p)]: [fs.readFileSync] throws when the file is missing. *)
Definition readJSON {A : Type} (file : option A) : result A :=
  match file with
  | Some v => Return v
  | None => Throw "ENOENT: no such file or directory"%string
  end.

(** JavaScript's [!v] for a string that may be undefined. *)
Definition falsy (v : option string) : bool :=
  match v with
  | None => true
  | Some s => bool_decide (s = ""%string)
  end.

(** The property names every plain object inherits from
    [Object.prototype]: reading one of them from an object that has no
    entry of its own under the name yields the inherited function (or
    object), which is truthy. *)
Definition inherited_name (n : string) : bool :=
  bool_decide (n ∈ ["constructor"; "__defineGetter__"; "__defineSetter__";
                    "hasOwnProperty"; "__lookupGetter__"; "__lookupSetter__";
                    "isPrototypeOf"; "propertyIsEnumerable"; "toString";
                    "valueOf"; "__proto__"; "toLocaleString"]%string).

(** [!tokens[n]] for the object [tokens] of [state.json]: an entry of its
    own decides; without one, an inherited name reads as truthy. *)
Definition no_token (tokens : gmap string string) (n : string) : bool :=
  match tokens !! n with
  | Some s => bool_decide (s = ""%string)
  | None => negb (inherited_name n)
  end.

(** A list none of whose names is inherited. *)
Definition plain_names (list : list colleague) : Prop :=
  ∀ c, c ∈ list → inherited_name (name c) = false.

(** ** HTTP responses *)

Inductive response : Type :=
| Status400 (error : string)
| Status404 (error : string)
| Status200 (assignee : option person)   (* [None]: null or undefined *)
| Status500 (detail : string).

(** [{ ok: true }], or status 500 with [{ error: 'failed to reset' }]. *)
Inductive reset_response : Type :=
| ResetOk
| ResetFailed.

(** [rows.push({ token: giver.token, giver: giver.name,
                 receiver_token: receiver.token, receiver: receiver.name })] *)
Definition make_row (giver receiver : person) : row :=
  {| r_token := token giver;
     r_pairing := {| giver := name (who giver);
                     receiver_token := token receiver;
                     receiver := name (who receiver) |} |}.

Definition type_error : string :=
  "Cannot read properties of undefined (reading 'token')"%string.

(** The loop of lines 135-139 from index [i] on, [givers] being
    [people] from [i] on.  [people[perm[i]]] is undefined when either
    index is out of range, and reading its [token] then throws. *)
Fixpoint push_rows (people : list person) (perm : list nat) (i : nat)
    (givers : list person) : result (list row) :=
  match givers with
  | [] => Return []
  | giver :: rest =>
      match perm !! i ≫= λ j, people !! j with
      | None => Throw type_error
      | Some receiver =>
          match push_rows people perm (S i) rest with
          | Return rows => Return (make_row giver receiver :: rows)
          | Throw m => Throw m
          end
      end
  end.

Definition assignment_rows (people : list person) (perm : list nat) : result (list row) :=
  push_rows people perm 0 people.

(** The token of [people[j]], for reading a list of indices. *)
Definition token_at (people : list person) (j : nat) : string :=
  default ""%string (token <$> people !! j).

(** [new Map(people.map((p, i) => [p.token, i]))]: a later entry with the
    same key replaces an earlier one. *)
Definition tokenToIndex (people : list person) : gmap string nat :=
  foldl (λ m ip, <[token ip.2 := ip.1]> m) ∅ (zip (seq 0 (length people)) people).

(** [.order('giver', { ascending: true })], by code points. *)
Definition giver_le (a b : row) : Prop :=
  String.leb (giver (r_pairing a)) (giver (r_pairing b)) = true.

Global Instance giver_le_dec (a b : row) : Decision (giver_le a b).
Proof. unfold giver_le. apply _. Defined.

Definition table_rows (t : gmap string pairing) : list row :=
  (λ kv, {| r_token := kv.1; r_pairing := kv.2 |}) <$> map_to_list t.

Definition conflict_message : string :=
  "ON CONFLICT DO UPDATE command cannot affect row a second time"%string.

Section Server.

(** Whether [SUPABASE_URL] and [SUPABASE_ANON_KEY] are set. *)
Variable hasSupabase : bool.
(** The [k]-th call of [Math.random()] and of [randomUUID()]. *)
Variable Math_random : nat → unit_draw.
Variable randomUUID : nat → string.

(** ** Token registry (lines 29-59) *)

(** The list [loadColleaguesWithTokens] reads: [colleagues.json], or
    what [ensureDataDirAndSeed] puts there when it is missing. *)
Definition participants (w : world) : list colleague :=
  match colleagues_json w with
  | Some l => l
  | None => default [] (seed_json w)
  end.

(** The persisted map [state.tokens], empty while there is no file. *)
Definition tokens_of (w : world) : gmap string string :=
  default ∅ (state_json w).

Definition ensureState (w : world) : world :=
  match state_json w with
  | None => set_state (Some ∅) (uuids_used w) w
  | Some _ => w
  end.

Definition ensureDataDirAndSeed (w : world) : world :=
  let w := if dir_exists w then w else set_data_dir true w in
  match colleagues_json w with
  | Some _ => w
  | None =>
      match seed_json w with
      | Some seed => set_colleagues (Some seed) w
      | None => set_colleagues (Some []) w
      end
  end.

(** [for (const person of list) if (!state.tokens[person.name])
    state.tokens[person.name] = randomUUID()], with [u] UUIDs drawn so
    far. *)
Fixpoint assign_tokens (list : list colleague) (tokens : gmap string string)
    (u : nat) : gmap string string * nat :=
  match list with
  | [] => (tokens, u)
  | person :: rest =>
      if no_token tokens (name person)
      then assign_tokens rest (<[name person := randomUUID u]> tokens) (S u)
      else assign_tokens rest tokens u
  end.

(** [state.tokens[p.name]] in the final [map].  By then every name of the
    list reads as truthy (lemma [assign_tokens_covers]): a plain name has
    a non-empty entry of its own, which is the token.  An inherited name
    without an entry reads as the inherited function, which is no string;
    the empty string, which is no token, stands for it here, and the
    theorems that speak of tokens as strings take the names to be plain
    ([plain_names]). *)
Definition with_token (tokens : gmap string string) (p : colleague) : person :=
  {| who := p; token := default ""%string (tokens !! name p) |}.


Definition loadColleaguesWithTokens : M (list person) :=
  _ <- modify ensureDataDirAndSeed ;;
  list <- (λ w, (readJSON (colleagues_json w), w)) ;;
  _ <- modify ensureState ;;
  tokens <- (λ w, (readJSON (state_json w), w)) ;;
  u <- gets uuids_used ;;
  let '(tokens', u') := assign_tokens list tokens u in
  _ <- modify (set_state (Some tokens') u') ;;
  ret (with_token tokens' <$> list).

(** ** Assignment store (lines 74-111) *)

(** A request to Supabase has been answered; the error it came back with,
    if any. *)
Definition counted (w : world) : world :=
  if hasSupabase then set_requests (S (db_requests w)) w else w.

Definition next_error (w : world) : option string :=
  if hasSupabase then db_error w (db_requests w) else None.

(** [if (error) throw error] on the answer of a request. *)
Definition throw_on_error : M unit :=
  λ w, match next_error w with
       | Some m => (Throw m, counted w)
       | None => (Return tt, counted w)
       end.

(** [supabase.from('assignments').upsert(pairs, { onConflict: 'token' })]
    on a database that answers: one [INSERT ... ON CONFLICT (token) DO
    UPDATE]; PostgreSQL refuses the whole command when two of its rows
    carry the same token. *)
Definition upsert (pairs : list row) (t : gmap string pairing)
    : result (gmap string pairing) :=
  if decide (NoDup (r_token <$> pairs))
  then Return (foldl (λ t r, <[r_token r := r_pairing r]> t) t pairs)
  else Throw conflict_message.

(** The upsert of a database that answers, or the write of the local
    document.  Whether the request comes back with an error
    ([if (error) throw error], line 79) is told where the handler sends
    it ([save]). *)
Definition saveAssignments (pairs : list row) : M unit :=
  if hasSupabase then
    t <- gets table ;;
    t' <- lift (upsert pairs t) ;;
    modify (set_table t')
  else
    _ <- modify ensureDataDirAndSeed ;;
    modify (set_assignments (Some pairs)).

(** The rows of the listing; with Supabase, the rows a select that
    answers returns, in the order of the givers.  The [if (error) throw
    error] of line 92 is [throw_on_error] where a handler asks for the
    listing ([export_body]); the lookup without Supabase never sends a
    request. *)
Definition getAllAssignments (w : world) : list row :=
  if hasSupabase then merge_sort giver_le (table_rows (table w))
  else
    match assignments_json w with
    | None => []
    | Some rows => rows
    end.

(** With Supabase, [.eq('token', token).maybeSingle()] on the unique
    column, with [if (error) return null]; otherwise
    [list.find(r => r.token === token) || null]. *)
Definition getByToken (tok : string) (w : world) : option row :=
  if hasSupabase then
    match db_error w (db_requests w) with
    | Some _ => None
    | None => (λ p, {| r_token := tok; r_pairing := p |}) <$> table w !! tok
    end
  else
    find (λ r, bool_decide (r_token r = tok)) (getAllAssignments w).

(** [await getByToken(token)] in a handler: the answer, and the request
    counted. *)
Definition lookup (tok : string) : M (option row) :=
  λ w, (Return (getByToken tok w), counted w).

(** ** [POST /api/assign] (lines 121-151) *)

(** [derangement(n)], threading the random stream and logging the call. *)
Definition call_derangement (n : nat) : M (list nat) :=
  λ w, let r := derangement Math_random n (draws_used w) in
       (outcome r,
        set_generator (next_draw r) (generator_calls w ++ [n]) w).

(** Lines 133-139: one derangement, then the rows. *)
Definition buildAssignments (people : list person) : M (list row) :=
  perm <- call_derangement (length people) ;;
  lift (assignment_rows people perm).

(** [await saveAssignments(rows)]: the request may come back with an error
    of the database (line 79), which is thrown. *)
Definition save (rows : list row) : M unit :=
  _ <- throw_on_error ;;
  saveAssignments rows.

(** Lines 133-140. *)
Definition generate (people : list person) : M unit :=
  rows <- buildAssignments people ;;
  save rows.

(** [people.find(p => p.token === row.receiver_token)] or [null]. *)
Definition find_assignee (people : list person) (r : option row) : option person :=
  match r with
  | Some r => find (λ p, bool_decide (token p = receiver_token (r_pairing r))) people
  | None => None
  end.

(** The body of the [try] block once the token is known to be truthy. *)
Definition assign_body (tok : string) : M response :=
  people <- loadColleaguesWithTokens ;;
  match tokenToIndex people !! tok with
  | None => ret (Status404 "invalid token"%string)
  | Some idx =>
      existing <- lookup tok ;;
      _ <- (match existing with
            | None => generate people
            | Some _ => ret tt
            end) ;;
      r <- lookup tok ;;
      ret (Status200 (find_assignee people r))
  end.

(** [req.body.token] is [None] when the field is missing.  Whatever the
    [try] block throws is answered with status 500 and the message as
    detail; the effects made before the throw stay. *)
Definition post_assign (body_token : option string) (w : world) : response * world :=
  if falsy body_token then (Status400 "token required"%string, w)
  else
    match assign_body (default ""%string body_token) w with
    | (Return resp, w') => (resp, w')
    | (Throw m, w') => (Status500 m, w')
    end.

(** ** [POST /admin/reset] (lines 177-196)

    [writeJSON(localAssignmentsPath, [])] comes first and throws when the
    data directory does not exist; nothing is sent to Supabase then.
    [.delete().neq('token', '')] deletes the rows whose token differs
    from the empty string; its error is thrown.  Whatever is thrown is
    answered with status 500. *)
Definition post_reset (w : world) : reset_response * world :=
  if dir_exists w then
    let w1 := set_assignments (Some []) w in
    if hasSupabase then
      match db_error w1 (db_requests w1) with
      | Some _ => (ResetFailed, counted w1)
      | None =>
          (ResetOk,
           counted (set_table (filter (λ kv, kv.1 = ""%string) (table w1)) w1))
      end
    else (ResetOk, w1)
  else (ResetFailed, w).

(** The world a load leaves, and the participants with their tokens as
    the load returns them. *)
Definition loaded (w : world) : world := (loadColleaguesWithTokens w).2.

Definition people_of (w : world) : list person :=
  with_token (tokens_of (loaded w)) <$> participants w.

(** The store holds a row under the token. *)
Definition stored (tok : string) (w : world) : Prop :=
  if hasSupabase then is_Some (table w !! tok)
  else tok ∈ r_token <$> getAllAssignments w.

(** A world is complete when its files exist, every name of the list
    reads as truthy in the registry, and the store holds a row under the
    token of every participant. *)
Definition complete (w : world) : Prop :=
  ∃ list tk,
    colleagues_json w = Some list ∧
    state_json w = Some tk ∧
    (∀ p, p ∈ list → no_token tk (name p) = false) ∧
    (∀ p, p ∈ list → stored (token (with_token tk p)) w).

(** The same world up to the count of requests to Supabase, which has not
    gone down. *)
Definition same_but_requests (w w' : world) : Prop :=
  w' = set_requests (db_requests w') w ∧ db_requests w ≤ db_requests w'.

(** From this world on, every request to Supabase is answered without
    error.  Without Supabase there is nothing to ask for. *)
Definition reliable (w : world) : Prop :=
  hasSupabase = true → ∀ k, db_requests w ≤ k → db_error w k = None.

(** A sequence of reveal requests, one after the other. *)
Fixpoint post_assign_all (tokens : list (option string)) (w : world)
    : list response * world :=
  match tokens with
  | [] => ([], w)
  | t :: rest =>
      let '(resp, w') := post_assign t w in
      let '(resps, w'') := post_assign_all rest w' in
      (resp :: resps, w'')
  end.

End Server.

(** ** The other routes *)

Definition newline : string := String "010"%char EmptyString.

(** [GET /admin/links.csv] (lines 153-164). *)
Definition links_header : string := "Имя,Ссылка" +:+ newline.

(** [`${p.name},${claimUrl}\n`] with [claimUrl = `/claim/${p.token}`]. *)
Definition links_line (p : person) : string :=
  name (who p) +:+ "," +:+ ("/claim/" +:+ token p) +:+ newline.

(** [let csv = header; for (const p of people) csv += ...]. *)
Definition links_csv (people : list person) : string :=
  foldl (λ csv p, csv +:+ links_line p) links_header people.

(** [GET /admin/export.csv] (lines 198-220). *)
Definition export_header : string :=
  "Даритель,ДР,Годовщина,Подопечный,ДР подопечного,Годовщина подопечного,Ссылка"
  +:+ newline.

(** [new Map(people.map(p => [p.token, p]))]: a later entry with the
    same key replaces an earlier one. *)
Definition tokenToPerson (people : list person) : gmap string person :=
  foldl (λ m p, <[token p := p]> m) ∅ people.

Definition export_line (giver receiver : person) : string :=
  name (who giver) +:+ "," +:+ birthday (who giver) +:+ "," +:+
  anniversary (who giver) +:+ "," +:+ name (who receiver) +:+ "," +:+
  birthday (who receiver) +:+ "," +:+ anniversary (who receiver) +:+ "," +:+
  ("/claim/" +:+ token giver) +:+ newline.

(** One turn of the loop over the rows: a row whose giver or receiver is
    not in the map is skipped ([continue]). *)
Definition export_step (known : gmap string person) (csv : string) (r : row) : string :=
  match known !! r_token r, known !! receiver_token (r_pairing r) with
  | Some giver, Some receiver => csv +:+ export_line giver receiver
  | _, _ => csv
  end.

Definition export_csv (people : list person) (rows : list row) : string :=
  foldl (export_step (tokenToPerson people)) export_header rows.

(** Answers of the routes.  The links and whoami routes have no [try]: in
    their computations a [Throw] is the uncaught exception. *)
Inductive whoami_response : Type :=
| WhoamiOk (me : person)
| Whoami404 (error : string).

Inductive export_response : Type :=
| ExportOk (csv : string)
| Export500 (body : string).

Section Admin.

Variable hasSupabase : bool.
Variable randomUUID : nat → string.

Definition get_links_csv : M string :=
  people <- loadColleaguesWithTokens randomUUID ;;
  ret (links_csv people).

(** [GET /api/whoami/:token] (lines 166-171); the route matches a
    non-empty [:token] only. *)
Definition get_whoami (tok : string) : M whoami_response :=
  people <- loadColleaguesWithTokens randomUUID ;;
  match find (λ p, bool_decide (token p = tok)) people with
  | Some me => ret (WhoamiOk me)
  | None => ret (Whoami404 "invalid token"%string)
  end.

(** The [try] block of the export, and the route with its [catch]. *)
Definition export_body : M string :=
  people <- loadColleaguesWithTokens randomUUID ;;
  _ <- throw_on_error hasSupabase ;;
  rows <- gets (getAllAssignments hasSupabase) ;;
  ret (export_csv people rows).

Definition get_export_csv (w : world) : export_response * world :=
  match export_body w with
  | (Return csv, w') => (ExportOk csv, w')
  | (Throw m, w') => (Export500 ("failed: " +:+ m), w')
  end.

End Admin.

(** ** Sample data for the examples *)

(** A source of tokens: "u0", "u1", "u2", ... *)
Definition sample_uuid (k : nat) : string := "u" +:+ pretty k.

Definition sample_colleague (n : string) : colleague :=
  {| name := n; birthday := "1990-01-01"%string; anniversary := "2020-06-01"%string |}.

Definition fresh_world (list : list colleague) : world :=
  {| colleagues_json := Some list; seed_json := None;
     state_json := None; assignments_json := None;
     table := ∅; uuids_used := 0; draws_used := 0; generator_calls := [];
     data_dir := true; db_error := λ _, None; db_requests := 0 |}.

Definition alice_bob_carol : list colleague :=
  [sample_colleague "Alice"%string; sample_colleague "Bob"%string;
   sample_colleague "Carol"%string].

Definition alice : person := {| who := sample_colleague "Alice"%string; token := "u0"%string |}.
Definition bob : person := {| who := sample_colleague "Bob"%string; token := "u1"%string |}.
Definition carol : person := {| who := sample_colleague "Carol"%string; token := "u2"%string |}.

(** A random source that yields 1/2 two thousand times and 0 afterwards. *)
Definition flaky (k : nat) : unit_draw := if k <? 2000 then half else zero.

(** The world Alice's request leaves for Alice, Bob and Carol with
    Supabase: the table holds the three rows. *)
Definition filled_world : world :=
  (post_assign true (λ _, zero) sample_uuid (Some "u0"%string)
     (fresh_world alice_bob_carol)).2.


(** The draw [(n - 1) / n], for which [Math.floor(r * (i + 1))] is [i]
    whenever [i < n]. *)
Definition top_draw (n : nat) : unit_draw := {| numer := n - 1; slack := 0 |}.
(** ** Properties of the generator *)

Lemma Math_floor_mul_lt r m : 0 < m → Math_floor_mul r m < m.
Proof.
  intros Hm. unfold Math_floor_mul, denom.
  apply Nat.Div0.div_lt_upper_bound. nia.
Qed.

Lemma Math_floor_mul_le r i : Math_floor_mul r (i + 1) ≤ i.
Proof. pose proof (Math_floor_mul_lt r (i + 1)). lia. Qed.

Lemma swap_length arr i j : length (swap arr i j) = length arr.
Proof.
  unfold swap. destruct (arr !! j), (arr !! i); auto.
  by rewrite !length_insert.
Qed.

Lemma insert_Permutation_cons (l : list nat) i x y :
  l !! i = Some x → <[i := y]> l ≡ₚ y :: delete i l.
Proof.
  revert i. induction l as [|a l IH]; intros [|i] H; simplify_eq/=; auto.
  rewrite (IH i H). apply Permutation_swap.
Qed.

Lemma swap_Permutation arr i j : swap arr i j ≡ₚ arr.
Proof.
  unfold swap.
  destruct (arr !! j) as [aj|] eqn:Hj; [|done].
  destruct (arr !! i) as [ai|] eqn:Hi; [|done].
  destruct (decide (i = j)) as [->|Hne].
  - simplify_eq. rewrite list_insert_insert_eq. by rewrite list_insert_id.
  - assert (Hj' : <[i := aj]> arr !! j = Some aj)
      by (by rewrite list_lookup_insert_ne).
    assert (Hd : delete j (<[i := aj]> arr) ≡ₚ delete i arr).
    { apply (Permutation_cons_inv (a := aj)).
      etrans; [symmetry; apply delete_Permutation, Hj'|].
      by apply insert_Permutation_cons with ai. }
    etrans; [by apply insert_Permutation_cons with aj|].
    etrans; [apply Permutation_cons; [reflexivity|apply Hd]|].
    symmetry. by apply delete_Permutation.
Qed.

Lemma swap_in_range arr i j :
  i < length arr → j ≤ i →
  ∃ ai aj, arr !! i = Some ai ∧ arr !! j = Some aj ∧
           swap arr i j = <[j := ai]> (<[i := aj]> arr).
Proof.
  intros Hi Hj.
  destruct (lookup_lt_is_Some_2 arr i Hi) as [ai Hai].
  destruct (lookup_lt_is_Some_2 arr j ltac:(lia)) as [aj Haj].
  exists ai, aj. unfold swap. by rewrite Hai, Haj.
Qed.

Lemma every_from_spec s arr :
  every_from s arr = true ↔ ∀ i v, arr !! i = Some v → v ≠ s + i.
Proof.
  revert s. induction arr as [|a arr IH]; intros s; simpl.
  - split; [intros _ i v Hl; by destruct i|done].
  - rewrite andb_true_iff, negb_true_iff, Nat.eqb_neq, IH. split.
    + intros [Ha Hr] [|i] v Hl; simplify_eq/=; [lia|].
      specialize (Hr i v Hl). lia.
    + intros H. split.
      * specialize (H 0 a eq_refl). lia.
      * intros i v Hl. specialize (H (S i) v Hl). lia.
Qed.

Lemma every_not_index_spec arr :
  every_not_index arr = true ↔ ∀ i v, arr !! i = Some v → v ≠ i.
Proof. unfold every_not_index. by rewrite every_from_spec. Qed.

Section DerangementFacts.

Variable Math_random : nat → unit_draw.

Lemma shuffle_Permutation i arr k : (shuffle Math_random i arr k).1 ≡ₚ arr.
Proof.
  revert arr k. induction i as [|i IH]; intros arr k; simpl; [done|].
  rewrite IH. apply swap_Permutation.
Qed.

Lemma shuffle_next i arr k : (shuffle Math_random i arr k).2 = k + i.
Proof.
  revert arr k. induction i as [|i IH]; intros arr k; simpl; [lia|].
  rewrite IH. lia.
Qed.

Lemma shuffles_Permutation n t arr k :
  (shuffles Math_random n t arr k).1 ≡ₚ arr.
Proof.
  revert arr k. induction t as [|t IH]; intros arr k; simpl; [done|].
  pose proof (shuffle_Permutation (n - 1) arr k) as Hs.
  destruct (shuffle Math_random (n - 1) arr k) as [arr' k'].
  by rewrite IH.
Qed.

(** The loop either returns a checked permutation of its array or throws
    after using up its budget; each attempt takes [n - 1] draws. *)
Lemma tries_loop_sound n budget tries arr k :
  let r := tries_loop Math_random n budget tries arr k in
  attempts r ≤ tries + budget ∧
  next_draw r = k + (attempts r - tries) * (n - 1) ∧
  tries ≤ attempts r ∧
  ((∃ perm, outcome r = Return perm ∧ perm ≡ₚ arr ∧
            ∀ i v, perm !! i = Some v → v ≠ i) ∨
   (outcome r = Throw failed_message ∧ attempts r = tries + budget)).
Proof.
  revert tries arr k. induction budget as [|b IH]; intros tries arr k; simpl.
  - repeat split; try lia. right. split; [done|lia].
  - pose proof (shuffle_Permutation (n - 1) arr k) as Hp.
    pose proof (shuffle_next (n - 1) arr k) as Hk.
    destruct (shuffle Math_random (n - 1) arr k) as [arr' k']; simpl in *.
    destruct (every_not_index arr') eqn:He; simpl.
    + repeat split; try lia.
      left. exists arr'. split; [done|]. split; [done|].
      by apply every_not_index_spec.
    + destruct (IH (S tries) arr' k') as (Ha & Hn & Ht & Ho).
      repeat split; try lia.
      * rewrite Hn. subst k'.
        replace (attempts (tries_loop Math_random n b (S tries) arr' (k + (n - 1))) - tries)
          with (S (attempts (tries_loop Math_random n b (S tries) arr' (k + (n - 1))) - S tries))
          by lia.
        lia.
      * destruct Ho as [(perm & Ho & Hperm & Hfix)|[Ho Hx]].
        -- left. exists perm. split; [done|]. split; [by rewrite Hperm|done].
        -- right. split; [done|lia].
Qed.

(** If one of the next [budget] shuffles leaves no fixed point, the loop
    returns. *)
Lemma tries_loop_returns n budget tries arr k t :
  t < budget →
  every_not_index (shuffles Math_random n (S t) arr k).1 = true →
  ∃ perm, outcome (tries_loop Math_random n budget tries arr k) = Return perm.
Proof.
  revert tries arr k t. induction budget as [|b IH]; intros tries arr k t Ht; [lia|].
  simpl. destruct (shuffle Math_random (n - 1) arr k) as [arr' k'] eqn:Hs.
  intros He. destruct (every_not_index arr') eqn:He'; simpl; [by eexists|].
  destruct t as [|t]; [simpl in He; congruence|].
  apply (IH _ _ _ t); [lia|done].
Qed.

(** If none does, it throws. *)
Lemma tries_loop_throws n budget tries arr k :
  (∀ t, t < budget →
     every_not_index (shuffles Math_random n (S t) arr k).1 = false) →
  outcome (tries_loop Math_random n budget tries arr k) = Throw failed_message.
Proof.
  revert tries arr k. induction budget as [|b IH]; intros tries arr k H; [done|].
  simpl. pose proof (H 0 ltac:(lia)) as H0. simpl in H0.
  destruct (shuffle Math_random (n - 1) arr k) as [arr' k'] eqn:Hs.
  simpl in H0. rewrite H0. apply IH. intros t Ht.
  specialize (H (S t) ltac:(lia)). simpl in H. by rewrite Hs in H.
Qed.

(** A successful attempt within the budget makes [derangement] return a
    permutation of [0, n) without fixed point. *)
Lemma derangement_succeeds n k t :
  t < max_tries →
  every_not_index (attempt_array Math_random n t k) = true →
  ∃ perm, outcome (derangement Math_random n k) = Return perm ∧
          is_derangement n perm.
Proof.
  intros Ht He. unfold derangement.
  destruct (tries_loop_returns n max_tries 0 (seq 0 n) k t Ht He)
    as [perm Hperm].
  exists perm. split; [done|].
  destruct (tries_loop_sound n max_tries 0 (seq 0 n) k)
    as (_ & _ & _ & [(p & Hp & Hd & Hf)|[Hthrow _]]).
  - by assert (p = perm) as <- by congruence.
  - congruence.
Qed.

End DerangementFacts.

(** ** The generator on the source whose every draw is 0

    Each swap is then with position 0, and one shuffle turns [0, n) into
    the rotation [1; 2; ...; n - 1; 0]. *)

Lemma Math_floor_mul_zero m : Math_floor_mul zero m = 0.
Proof. reflexivity. Qed.

Lemma swap_head (x : nat) (mid rest : list nat) (y : nat) :
  swap (x :: mid ++ y :: rest) (S (length mid)) 0 = y :: mid ++ x :: rest.
Proof.
  unfold swap. simpl.
  rewrite (list_lookup_middle mid rest y (length mid) eq_refl). simpl.
  f_equal. revert x y. induction mid as [|a mid IH]; intros x y; simpl; [done|].
  f_equal. apply IH.
Qed.

Lemma shuffle_zero i x rest k :
  (shuffle (λ _, zero) i (x :: seq 1 i ++ rest) k).1 = seq 1 i ++ x :: rest.
Proof.
  revert x rest k. induction i as [|i IH]; intros x rest k; [done|].
  cbn [shuffle]. rewrite Math_floor_mul_zero.
  rewrite seq_S, <- app_assoc. cbn [app plus].
  pose proof (swap_head x (seq 1 i) rest (S i)) as Hs.
  rewrite length_seq in Hs. rewrite Hs, IH.
  by rewrite <- app_assoc.
Qed.

Lemma every_not_index_rotation m :
  every_not_index (seq 1 (S m) ++ [0]) = true.
Proof.
  apply every_not_index_spec. intros i v Hl.
  destruct (decide (i < S m)) as [Hlt|Hge].
  - rewrite lookup_app_l in Hl by (by rewrite length_seq).
    apply lookup_seq in Hl. lia.
  - rewrite lookup_app_r in Hl by (rewrite length_seq; lia).
    rewrite length_seq in Hl.
    destruct (i - S m) eqn:Hd; simplify_eq/=. lia.
Qed.

Lemma attempt_array_zero n k :
  2 ≤ n → attempt_array (λ _, zero) n 0 k = seq 1 (n - 1) ++ [0].
Proof.
  intros Hn. unfold attempt_array. cbn [shuffles].
  destruct (shuffle (λ _ : nat, zero) (n - 1) (seq 0 n) k) as [arr k'] eqn:Hs.
  simpl. change arr with (arr, k').1. rewrite <- Hs.
  destruct n as [|n]; [lia|]. replace (S n - 1) with n by lia.
  pose proof (shuffle_zero n 0 [] k) as Hz.
  rewrite app_nil_r in Hz. rewrite <- cons_seq. exact Hz.
Qed.

(** ** The claims about [derangement] *)

Section DerangementClaims.

Variable Math_random : nat → unit_draw.

Lemma tries_loop_one budget tries k :
  tries_loop Math_random 1 budget tries [0] k =
    {| outcome := Throw failed_message;
       attempts := tries + budget; next_draw := k |}.
Proof.
  revert tries. induction budget as [|b IH]; intros tries; simpl.
  - by rewrite Nat.add_0_r.
  - rewrite IH. f_equal. lia.
Qed.

Lemma derangement_one k :
  derangement Math_random 1 k =
    {| outcome := Throw failed_message;
       attempts := max_tries; next_draw := k |}.
Proof. exact (tries_loop_one max_tries 0 k). Qed.

(** C6.  For every [n] and every random source, [derangement n] makes at
    most 2000 shuffle-and-check attempts, consuming [n - 1] draws in
    each, and ends in one of two ways: it returns a permutation of
    [0, n) without fixed point, or it throws the error
    "Failed to create derangement".  The function is total, so it always
    ends. *)
Theorem derangement_bounded (n k : nat) :
  let r := derangement Math_random n k in
  attempts r ≤ 2000 ∧
  next_draw r = k + attempts r * (n - 1) ∧
  ((∃ perm, outcome r = Return perm ∧ is_derangement n perm) ∨
   outcome r = Throw failed_message).
Proof.
  unfold derangement.
  destruct (tries_loop_sound Math_random n max_tries 0 (seq 0 n) k)
    as (Ha & Hn & _ & Ho).
  split; [exact Ha|]. split; [by rewrite Nat.sub_0_r in Hn|].
  destruct Ho as [(perm & Ho & Hp & Hf)|[Ho _]]; [left|by right].
  exists perm. by repeat split.
Qed.

(** C5.  [derangement 1] never returns: whatever the random source, it
    throws "Failed to create derangement" after exactly 2000 attempts,
    without consuming a draw. *)
Theorem derangement_one_fails (k : nat) :
  derangement Math_random 1 k =
    {| outcome := Throw failed_message; attempts := 2000; next_draw := k |}.
Proof. exact (tries_loop_one max_tries 0 k). Qed.

(** C7.  [derangement 0] returns the empty sequence at its first attempt,
    whatever the random source, and throws nothing. *)
Theorem derangement_zero_empty (k : nat) :
  derangement Math_random 0 k =
    {| outcome := Return []; attempts := 1; next_draw := k |}.
Proof.
unfold derangement. change max_tries with (S 1999).
cbn [tries_loop seq Nat.sub shuffle].
change (every_not_index []) with true. reflexivity.
Qed.

(** C1, as amended.  For every [n >= 2] and every random source: if one
    of the first 2000 shuffles leaves no fixed point, [derangement n]
    returns, and what it returns is a permutation of [0, n) with
    [perm[i] != i] for every [i]. *)
Theorem derangement_returns_derangement (n k t : nat) :
  2 ≤ n →
  t < 2000 →
  every_not_index (attempt_array Math_random n t k) = true →
  ∃ perm, outcome (derangement Math_random n k) = Return perm ∧
          is_derangement n perm.
Proof.
  intros _ Ht He. by apply (derangement_succeeds Math_random n k t).
Qed.

End DerangementClaims.

(** C1 fails as stated: with two participants and every draw equal to 1/2,
    each swap exchanges position 1 with itself, all 2000 attempts check
    the identity, and the call throws instead of returning. *)
Lemma derangement_half_throws :
  2 ≤ 2 ∧
  outcome (derangement (λ _, half) 2 0) = Throw failed_message ∧
  ¬ ∃ perm, outcome (derangement (λ _, half) 2 0) = Return perm ∧
            is_derangement 2 perm.
Proof.
  assert (H : outcome (derangement (λ _, half) 2 0) = Throw failed_message)
    by (vm_compute; reflexivity).
  split; [lia|]. split; [exact H|].
  intros (perm & Hp & _). rewrite H in Hp. discriminate.
Qed.

(** The amended C1 at [n = 3] with every draw 0: the first shuffle gives
    [1; 2; 0]. *)
Lemma derangement_returns_derangement_witness :
  ∃ perm, outcome (derangement (λ _, zero) 3 0) = Return perm ∧
          is_derangement 3 perm.
Proof.
  apply (derangement_returns_derangement (λ _, zero) 3 0 0).
  - lia.
  - lia.
  - vm_compute. reflexivity.
Defined.

(** For every [n >= 2] some source makes the call return at once. *)
Lemma derangement_zero_source n k :
  2 ≤ n →
  outcome (derangement (λ _, zero) n k) = Return (seq 1 (n - 1) ++ [0]).
Proof.
  intros Hn. unfold derangement.
  pose proof (attempt_array_zero n k Hn) as Ha. unfold attempt_array in Ha.
  assert (Hm : max_tries = S 1999) by reflexivity. rewrite Hm.
  cbn [tries_loop]. cbn [shuffles] in Ha.
  destruct (shuffle (λ _ : nat, zero) (n - 1) (seq 0 n) k) as [arr k'].
  simpl in Ha. subst arr.
  destruct n as [|[|n]]; try lia.
  replace (S (S n) - 1) with (S n) by lia.
  by rewrite every_not_index_rotation.
Qed.

(** ** The token registry *)

Lemma falsy_false (v : option string) :
  falsy v = false ↔ ∃ t, v = Some t ∧ t ≠ ""%string.
Proof.
  destruct v as [t|]; simpl.
  - rewrite bool_decide_eq_false. split.
    + intros Ht. by exists t.
    + by intros (t' & [= <-] & Ht).
  - split; [done|]. by intros (t & Ht & _).
Qed.

Lemma no_token_false (tokens : gmap string string) (n : string) :
  no_token tokens n = false ↔
  (∃ t, tokens !! n = Some t ∧ t ≠ ""%string) ∨
  (tokens !! n = None ∧ inherited_name n = true).
Proof.
  unfold no_token. destruct (tokens !! n) as [t|].
  - rewrite bool_decide_eq_false. split.
    + intros Ht. left. by exists t.
    + by intros [(t' & [= <-] & Ht)|[[=] _]].
  - rewrite negb_false_iff. split.
    + intros Hi. by right.
    + by intros [(t & [=] & _)|[_ Hi]].
Qed.

Lemma no_token_plain (tokens : gmap string string) (n : string) :
  inherited_name n = false →
  no_token tokens n = false ↔ ∃ t, tokens !! n = Some t ∧ t ≠ ""%string.
Proof.
  intros Hplain. rewrite no_token_false. split.
  - intros [H|[_ Hi]]; [done|congruence].
  - intros H. by left.
Qed.


Lemma set_state_id w tokens :
  state_json w = Some tokens → set_state (Some tokens) (uuids_used w) w = w.
Proof. destruct w; simpl; by intros ->. Qed.

Section Registry.

Variable randomUUID : nat → string.

Lemma assign_tokens_keeps list tokens u n t :
  tokens !! n = Some t → t ≠ ""%string →
  (assign_tokens randomUUID list tokens u).1 !! n = Some t.
Proof.
  revert tokens u. induction list as [|p list IH]; intros tokens u Hn Ht; [done|].
  simpl. destruct (no_token tokens (name p)) eqn:Hf; [|by apply IH].
  apply IH; [|done]. rewrite lookup_insert_ne; [done|].
  intros <-. unfold no_token in Hf. rewrite Hn in Hf.
  by rewrite bool_decide_eq_true in Hf.
Qed.

Lemma assign_tokens_keeps_inherited list tokens u n :
  tokens !! n = None → inherited_name n = true →
  (assign_tokens randomUUID list tokens u).1 !! n = None.
Proof.
  revert tokens u. induction list as [|p list IH]; intros tokens u Hn Hi; [done|].
  simpl. destruct (no_token tokens (name p)) eqn:Hf; [|by apply IH].
  apply IH; [|done]. rewrite lookup_insert_ne; [done|].
  intros <-. unfold no_token in Hf. rewrite Hn, Hi in Hf. done.
Qed.

Lemma assign_tokens_settled list tokens u :
  (∀ p, p ∈ list → no_token tokens (name p) = false) →
  assign_tokens randomUUID list tokens u = (tokens, u).
Proof.
  revert tokens u. induction list as [|p list IH]; intros tokens u H; [done|].
  simpl. rewrite (H p) by left. apply IH. intros q Hq. apply H. by right.
Qed.

Section Truthy.

Hypothesis randomUUID_truthy : ∀ k, randomUUID k ≠ ""%string.

Lemma assign_tokens_keeps_truthy list tokens u n :
  no_token tokens n = false →
  no_token (assign_tokens randomUUID list tokens u).1 n = false.
Proof.
  intros [(t & Ht & Hne)|[Hn Hi]]%no_token_false; apply no_token_false.
  - left. exists t. split; [|done]. by apply assign_tokens_keeps.
  - right. split; [|done]. by apply assign_tokens_keeps_inherited.
Qed.

Lemma assign_tokens_covers list tokens u p :
  p ∈ list →
  no_token (assign_tokens randomUUID list tokens u).1 (name p) = false.
Proof.
  revert tokens u. induction list as [|q list IH]; intros tokens u Hp.
  { by apply elem_of_nil in Hp. }
  apply elem_of_cons in Hp as [->|Hp]; simpl.
  - destruct (no_token tokens (name q)) eqn:Hf.
    + apply assign_tokens_keeps_truthy, no_token_false. left.
      eexists. split; [by rewrite lookup_insert_eq|apply randomUUID_truthy].
    + by apply assign_tokens_keeps_truthy.
  - destruct (no_token tokens (name q)); by apply IH.
Qed.

(** A plain name of the list ends up with a non-empty entry of its own. *)
Lemma assign_tokens_covers_plain list tokens u p :
  p ∈ list → inherited_name (name p) = false →
  ∃ t, (assign_tokens randomUUID list tokens u).1 !! name p = Some t ∧
       t ≠ ""%string.
Proof.
  intros Hp Hplain. apply (no_token_plain _ _ Hplain).
  by apply assign_tokens_covers.
Qed.


Hypothesis randomUUID_inj : ∀ j k, randomUUID j = randomUUID k → j = k.


End Truthy.

(** What a load does, in one step. *)
Lemma ensureDataDirAndSeed_state w :
  state_json (ensureDataDirAndSeed w) = state_json w ∧
  uuids_used (ensureDataDirAndSeed w) = uuids_used w.
Proof.
  unfold ensureDataDirAndSeed.
  destruct (dir_exists w); simpl;
    by destruct (colleagues_json w), (seed_json w).
Qed.

Lemma ensureDataDirAndSeed_colleagues w :
  colleagues_json (ensureDataDirAndSeed w) = Some (participants w).
Proof.
  unfold ensureDataDirAndSeed, participants.
  destruct (dir_exists w); simpl;
    destruct (colleagues_json w) eqn:Hc; [done| |done|];
    by destruct (seed_json w).
Qed.

Lemma load_unfold w :
  loadColleaguesWithTokens randomUUID w =
    let r := assign_tokens randomUUID (participants w) (tokens_of w) (uuids_used w) in
    (Return (with_token r.1 <$> participants w),
     set_state (Some r.1) r.2 (ensureState (ensureDataDirAndSeed w))).
Proof.
  unfold loadColleaguesWithTokens, bindM, modify, gets, ret.
  pose proof (ensureDataDirAndSeed_colleagues w) as Hc.
  pose proof (ensureDataDirAndSeed_state w) as [Hs Hu].
  set (w1 := ensureDataDirAndSeed w) in *.
  rewrite Hc. simpl. unfold tokens_of, ensureState. rewrite <- Hs, <- Hu.
  destruct (state_json w1) as [st|] eqn:Hst; simpl.
  - rewrite Hst. simpl.
    by destruct (assign_tokens randomUUID (participants w) st (uuids_used w1)).
  - by destruct (assign_tokens randomUUID (participants w) ∅ (uuids_used w1)).
Qed.

End Registry.

Lemma sample_uuid_truthy k : sample_uuid k ≠ ""%string.
Proof. done. Qed.



Lemma ensureDataDirAndSeed_id w l :
  colleagues_json w = Some l → ensureDataDirAndSeed w = w.
Proof.
  intros Hc. unfold ensureDataDirAndSeed, dir_exists. rewrite Hc. simpl.
  by rewrite Hc.
Qed.

Lemma ensureState_id w tk : state_json w = Some tk → ensureState w = w.
Proof. unfold ensureState. by intros ->. Qed.

(** A world whose files exist and give every listed name a truthy token
    is left as it is by a load. *)
Lemma load_settled randomUUID w list tk :
  colleagues_json w = Some list →
  state_json w = Some tk →
  (∀ p, p ∈ list → no_token tk (name p) = false) →
  loadColleaguesWithTokens randomUUID w = (Return (with_token tk <$> list), w).
Proof.
  intros Hc Hs Hcov. rewrite load_unfold.
  assert (Hp : participants w = list) by (unfold participants; by rewrite Hc).
  assert (Ht : tokens_of w = tk) by (unfold tokens_of; by rewrite Hs).
  rewrite Hp, Ht, (assign_tokens_settled _ _ _ _ Hcov). simpl.
  rewrite (ensureDataDirAndSeed_id _ _ Hc), (ensureState_id _ _ Hs).
  by rewrite set_state_id.
Qed.



(** ** The assignment builder *)

Lemma push_rows_spec people perm i givers rows :
  push_rows people perm i givers = Return rows →
  length rows = length givers ∧
  ∀ m g, givers !! m = Some g →
    ∃ j r, perm !! (i + m) = Some j ∧ people !! j = Some r ∧
           rows !! m = Some (make_row g r).
Proof.
  revert i rows. induction givers as [|g0 givers IH]; intros i rows; simpl.
  - intros [= <-]. split; [done|]. intros m g Hm. by destruct m.
  - destruct (perm !! i) as [j|] eqn:Hj; simpl; [|done].
    destruct (people !! j) as [r|] eqn:Hr; simpl; [|done].
    destruct (push_rows people perm (S i) givers) as [rest|] eqn:Hrest; [|done].
    intros [= <-]. destruct (IH (S i) rest Hrest) as [Hlen Hrows].
    split; [simpl; lia|]. intros [|m] g Hg; simplify_eq/=.
    + exists j, r. by rewrite Nat.add_0_r.
    + destruct (Hrows m g Hg) as (j' & r' & Hp & Hq & Hrw).
      exists j', r'. by replace (i + S m) with (S i + m) by lia.
Qed.

Lemma push_rows_total people perm i givers :
  (∀ m, m < length givers → ∃ j, perm !! (i + m) = Some j ∧ j < length people) →
  ∃ rows, push_rows people perm i givers = Return rows.
Proof.
  revert i. induction givers as [|g0 givers IH]; intros i H; simpl; [by eexists|].
  destruct (H 0 ltac:(simpl; lia)) as (j & Hj & Hlt).
  rewrite Nat.add_0_r in Hj. rewrite Hj. simpl.
  destruct (lookup_lt_is_Some_2 people j Hlt) as [r ->].
  destruct (IH (S i)) as [rest ->]; [|by eexists].
  intros m Hm. destruct (H (S m) ltac:(simpl; lia)) as (j' & Hj' & Hlt').
  exists j'. by replace (S i + m) with (i + S m) by lia.
Qed.

Lemma push_rows_tokens people perm i givers rows :
  push_rows people perm i givers = Return rows →
  r_token <$> rows = token <$> givers.
Proof.
  intros H. destruct (push_rows_spec _ _ _ _ _ H) as [Hlen Hrows].
  apply list_eq. intros m. rewrite !list_lookup_fmap.
  destruct (givers !! m) as [g|] eqn:Hg; simpl.
  - destruct (Hrows m g Hg) as (j & r & _ & _ & ->). done.
  - apply lookup_ge_None in Hg.
    rewrite (lookup_ge_None_2 rows m); [done|lia].
Qed.

Lemma token_at_seq people :
  token_at people <$> seq 0 (length people) = token <$> people.
Proof.
  apply list_eq. intros m. rewrite !list_lookup_fmap. unfold token_at.
  destruct (people !! m) as [p|] eqn:Hp; simpl.
  - rewrite lookup_seq_lt by (by eapply lookup_lt_Some). simpl. by rewrite Hp.
  - apply lookup_ge_None in Hp. by rewrite lookup_seq_ge.
Qed.

(** Over a derangement of the indices the rows pair every participant with
    another one, each giver and each receiver exactly once. *)
Lemma assignment_rows_bijection people perm :
  NoDup (token <$> people) →
  is_derangement (length people) perm →
  ∃ rows,
    assignment_rows people perm = Return rows ∧
    length rows = length people ∧
    r_token <$> rows = token <$> people ∧
    (λ r, receiver_token (r_pairing r)) <$> rows ≡ₚ token <$> people ∧
    ∀ r, r ∈ rows → r_token r ≠ receiver_token (r_pairing r).
Proof.
  intros Hnd [Hperm Hfix].
  assert (Hlen : length perm = length people)
    by (by rewrite Hperm, length_seq).
  assert (Hin : ∀ m j, perm !! m = Some j → j < length people).
  { intros m j Hj. apply list_elem_of_lookup_2 in Hj.
    rewrite Hperm in Hj. apply elem_of_seq in Hj. lia. }
  destruct (push_rows_total people perm 0 people) as [rows Hrows].
  { intros m Hm. destruct (lookup_lt_is_Some_2 perm m ltac:(lia)) as [j Hj].
    exists j. split; [done|]. by apply (Hin m). }
  exists rows. split; [exact Hrows|].
  destruct (push_rows_spec _ _ _ _ _ Hrows) as [Hl Hspec].
  split; [done|]. split; [by eapply push_rows_tokens|]. split.
  - assert (Heq : (λ r, receiver_token (r_pairing r)) <$> rows
                  = token_at people <$> perm).
    { apply list_eq. intros m. rewrite !list_lookup_fmap.
      destruct (people !! m) as [g|] eqn:Hg.
      + destruct (Hspec m g Hg) as (j & r & Hj & Hr & ->). simpl in *.
        rewrite Hj. simpl. unfold token_at. by rewrite Hr.
      + apply lookup_ge_None in Hg.
        rewrite (lookup_ge_None_2 rows m), (lookup_ge_None_2 perm m); [done|lia..]. }
    rewrite Heq, Hperm. by rewrite token_at_seq.
  - intros r Hr Heq. apply list_elem_of_lookup in Hr as [m Hm].
    destruct (lookup_lt_is_Some_2 people m) as [g Hg].
    { rewrite <- Hl. by eapply lookup_lt_Some. }
    destruct (Hspec m g Hg) as (j & r' & Hj & Hr' & Hrow). simpl in Hj.
    rewrite Hm in Hrow. injection Hrow as ->. simpl in Heq.
    assert (m = j); [|by apply (Hfix m j)].
    apply (NoDup_lookup (token <$> people) m j (token g)); [done|..];
      rewrite list_lookup_fmap.
    + by rewrite Hg.
    + by rewrite Hr', Heq.
Qed.

Lemma buildAssignments_unfold Math_random people w :
  buildAssignments Math_random people w =
    let r := derangement Math_random (length people) (draws_used w) in
    let w' := set_generator (next_draw r) (generator_calls w ++ [length people]) w in
    match outcome r with
    | Return perm => (assignment_rows people perm, w')
    | Throw m => (Throw m, w')
    end.
Proof.
  unfold buildAssignments, bindM, call_derangement, lift. simpl.
  by destruct (outcome _).
Qed.

(** C3, as amended.  For every participant list of length [k >= 2] whose
    tokens are pairwise distinct: if one of the first 2000 shuffles of the
    single [derangement] call leaves no fixed point, the assignment
    builder returns exactly [k] rows, the giver tokens being the
    participants' tokens in order (each exactly once), the receiver tokens
    a rearrangement of them (each exactly once), and no row having its own
    token as receiver token; otherwise — every one of the 2000 shuffles
    leaves a fixed point — the builder throws "Failed to create
    derangement" and produces no row, the store being as before.  Either
    way the generator has been called once. *)
Theorem buildAssignments_bijection Math_random people w :
  2 ≤ length people →
  NoDup (token <$> people) →
  (∀ t, t < 2000 →
     every_not_index
       (attempt_array Math_random (length people) t (draws_used w)) = true →
     ∃ rows w',
       buildAssignments Math_random people w = (Return rows, w') ∧
       generator_calls w' = generator_calls w ++ [length people] ∧
       length rows = length people ∧
       r_token <$> rows = token <$> people ∧
       (λ r, receiver_token (r_pairing r)) <$> rows ≡ₚ token <$> people ∧
       ∀ r, r ∈ rows → r_token r ≠ receiver_token (r_pairing r)) ∧
  ((∀ t, t < 2000 →
      every_not_index
        (attempt_array Math_random (length people) t (draws_used w)) = false) →
   ∃ w',
     buildAssignments Math_random people w = (Throw failed_message, w') ∧
     generator_calls w' = generator_calls w ++ [length people] ∧
     assignments_json w' = assignments_json w ∧
     table w' = table w).
Proof.
  intros _ Hnd. split.
  - intros t Ht He.
    destruct (derangement_succeeds Math_random _ _ t Ht He) as (perm & Hout & Hd).
    destruct (assignment_rows_bijection people perm Hnd Hd)
      as (rows & Hrows & Hprops).
    exists rows. eexists. rewrite buildAssignments_unfold. cbv zeta.
    rewrite Hout, Hrows. split; [reflexivity|]. split; [done|]. exact Hprops.
  - intros Hall.
    assert (Hout : outcome (derangement Math_random (length people) (draws_used w))
                   = Throw failed_message) by (by apply tries_loop_throws).
    eexists. rewrite buildAssignments_unfold. cbv zeta. rewrite Hout.
    split; [reflexivity|]. done.
Qed.

(** The amended C3 on Alice, Bob and Carol with every draw 0: the first
    shuffle leaves no fixed point. *)
Lemma buildAssignments_bijection_witness :
  ∃ rows w',
    buildAssignments (λ _, zero) [alice; bob; carol] (fresh_world [])
      = (Return rows, w') ∧
    generator_calls w' = [] ++ [3] ∧
    length rows = 3 ∧
    r_token <$> rows = token <$> [alice; bob; carol] ∧
    (λ r, receiver_token (r_pairing r)) <$> rows
      ≡ₚ token <$> [alice; bob; carol] ∧
    ∀ r, r ∈ rows → r_token r ≠ receiver_token (r_pairing r).
Proof.
  refine (proj1 (buildAssignments_bijection (λ _, zero) [alice; bob; carol]
                   (fresh_world []) _ _) 0 _ _).
  - simpl. lia.
  - refine (bool_decide_unpack _ _). vm_compute. exact I.
  - lia.
  - vm_compute. reflexivity.
Defined.

(** C3 fails as stated: for Alice and Bob, with every draw equal to 1/2,
    the single [derangement] call throws and no row is produced. *)
Lemma buildAssignments_half_throws :
  2 ≤ length [alice; bob] ∧
  NoDup (token <$> [alice; bob]) ∧
  (buildAssignments (λ _, half) [alice; bob] (fresh_world [])).1
    = Throw failed_message ∧
  ¬ ∃ rows, (buildAssignments (λ _, half) [alice; bob] (fresh_world [])).1
              = Return rows.
Proof.
  assert (H : (buildAssignments (λ _, half) [alice; bob] (fresh_world [])).1
              = Throw failed_message) by (vm_compute; reflexivity).
  split; [simpl; lia|]. split.
  - refine (bool_decide_unpack _ _). vm_compute. exact I.
  - split; [exact H|]. intros [rows Hr]. rewrite H in Hr. discriminate.
Qed.

(** ** The assignment store and the token index *)

Lemma tokenToIndex_fold (idx : list nat) (people : list person)
    (m : gmap string nat) (t : string) :
  length idx = length people →
  is_Some (foldl (λ m ip, <[token ip.2 := ip.1]> m) m (zip idx people) !! t)
  ↔ is_Some (m !! t) ∨ t ∈ token <$> people.
Proof.
  revert idx m. induction people as [|p people IH]; intros [|i idx] m Hlen;
    simplify_eq/=.
  - rewrite elem_of_nil. tauto.
  - rewrite (IH idx _ Hlen), elem_of_cons, lookup_insert.
    case_decide as Heq; simpl.
    + subst t. split; [intros _; right; by left|intros _; left; by eexists].
    + split; intros [H|H]; auto. destruct H as [H|H]; [congruence|auto].
Qed.

Lemma tokenToIndex_is_Some people t :
  is_Some (tokenToIndex people !! t) ↔ t ∈ token <$> people.
Proof.
  unfold tokenToIndex. rewrite tokenToIndex_fold by (by rewrite length_seq).
  rewrite lookup_empty. split; [intros [[? [=]]|H]; done|by right].
Qed.

Lemma tokenToIndex_None people t :
  tokenToIndex people !! t = None ↔ t ∉ token <$> people.
Proof.
  rewrite <- tokenToIndex_is_Some, eq_None_not_Some. done.
Qed.

Lemma find_token_is_Some (rows : list row) t :
  is_Some (find (λ r, bool_decide (r_token r = t)) rows) ↔ t ∈ r_token <$> rows.
Proof.
  induction rows as [|r rows IH]; simpl.
  - rewrite elem_of_nil. split; [by intros [? [=]]|done].
  - rewrite elem_of_cons. case_bool_decide as Heq.
    + split; [by left|by eexists].
    + rewrite IH. split; [by right|]. intros [H|H]; [congruence|done].
Qed.

Lemma upsert_fold_is_Some (rows : list row) (t0 : gmap string pairing) t :
  is_Some (foldl (λ t r, <[r_token r := r_pairing r]> t) t0 rows !! t)
  ↔ is_Some (t0 !! t) ∨ t ∈ r_token <$> rows.
Proof.
  revert t0. induction rows as [|r rows IH]; intros t0; simpl.
  - rewrite elem_of_nil. tauto.
  - rewrite IH, elem_of_cons, lookup_insert. case_decide as Heq; simpl.
    + subst t. split; [intros _; right; by left|intros _; left; by eexists].
    + split; intros [H|H]; auto. destruct H as [H|H]; [congruence|auto].
Qed.

Section Store.

Variable hasSupabase : bool.

(** Reading the store looks at the local document and the table and, with
    Supabase, at whether the request is answered. *)
Lemma getByToken_ext w w' t :
  assignments_json w = assignments_json w' → table w = table w' →
  db_error w (db_requests w) = db_error w' (db_requests w') →
  getByToken hasSupabase t w = getByToken hasSupabase t w'.
Proof.
  unfold getByToken, getAllAssignments. by intros -> -> ->.
Qed.

Lemma getAllAssignments_ext w w' :
  assignments_json w = assignments_json w' → table w = table w' →
  getAllAssignments hasSupabase w = getAllAssignments hasSupabase w'.
Proof. unfold getAllAssignments. by intros -> ->. Qed.

(** A row that is found is stored; a stored row is found when the request
    is answered. *)
Lemma getByToken_stored t w :
  is_Some (getByToken hasSupabase t w) → stored hasSupabase t w.
Proof.
  unfold getByToken, stored. destruct hasSupabase.
  - destruct (db_error w (db_requests w)); [by intros [? [=]]|].
    by rewrite fmap_is_Some.
  - by rewrite find_token_is_Some.
Qed.

Lemma stored_getByToken t w :
  next_error hasSupabase w = None →
  stored hasSupabase t w → is_Some (getByToken hasSupabase t w).
Proof.
  unfold getByToken, stored, next_error. destruct hasSupabase.
  - intros ->. by rewrite fmap_is_Some.
  - by rewrite find_token_is_Some.
Qed.

Lemma stored_ext t w w' :
  assignments_json w = assignments_json w' → table w = table w' →
  stored hasSupabase t w ↔ stored hasSupabase t w'.
Proof. unfold stored, getAllAssignments. by intros -> ->. Qed.

(** Counting a request changes the count alone. *)
Lemma counted_eq w :
  counted hasSupabase w =
    set_requests (if hasSupabase then S (db_requests w) else db_requests w) w.
Proof. unfold counted. destruct hasSupabase; [done|by destruct w]. Qed.

Lemma set_requests_twice m n w :
  set_requests m (set_requests n w) = set_requests m w.
Proof. done. Qed.

Lemma set_requests_id w : set_requests (db_requests w) w = w.
Proof. by destruct w. Qed.

Lemma reliable_next w : reliable hasSupabase w → next_error hasSupabase w = None.
Proof.
  unfold reliable, next_error. destruct hasSupabase; [|done].
  intros H. by apply H.
Qed.

Lemma reliable_later w w' :
  db_error w' = db_error w → db_requests w ≤ db_requests w' →
  reliable hasSupabase w → reliable hasSupabase w'.
Proof.
  unfold reliable. intros -> Hle H Hs k Hk. apply H; [done|lia].
Qed.

(** A successful save changes the store alone and stores every saved
    token. *)
Lemma saveAssignments_Return rows w w' :
  is_Some (colleagues_json w) →
  saveAssignments hasSupabase rows w = (Return tt, w') →
  colleagues_json w' = colleagues_json w ∧
  seed_json w' = seed_json w ∧
  state_json w' = state_json w ∧
  uuids_used w' = uuids_used w ∧
  draws_used w' = draws_used w ∧
  generator_calls w' = generator_calls w ∧
  db_error w' = db_error w ∧
  db_requests w' = db_requests w ∧
  ∀ t, t ∈ r_token <$> rows → stored hasSupabase t w'.
Proof.
  intros [l Hl]. unfold saveAssignments, stored, getAllAssignments.
  destruct hasSupabase.
  - unfold bindM, gets, lift, modify, upsert.
    destruct (decide (NoDup (r_token <$> rows))); [|done].
    intros [= <-]. simpl. repeat split; try done.
    intros t Ht. apply upsert_fold_is_Some. by right.
  - unfold bindM, modify. rewrite (ensureDataDirAndSeed_id _ _ Hl).
    intros [= <-]. simpl. repeat split; done.
Qed.

(** A failed save changes nothing. *)
Lemma saveAssignments_Throw rows w w' m :
  is_Some (colleagues_json w) →
  saveAssignments hasSupabase rows w = (Throw m, w') → w' = w.
Proof.
  intros [l Hl]. unfold saveAssignments.
  destruct hasSupabase.
  - unfold bindM, gets, lift, modify, upsert.
    destruct (decide (NoDup (r_token <$> rows))); [done|]. by intros [= <-].
  - unfold bindM, modify. done.
Qed.

End Store.
(** ** The reveal handler *)

Section Handler.

Variable hasSupabase : bool.
Variable Math_random : nat → unit_draw.
Variable randomUUID : nat → string.

Local Abbreviation load := (loadColleaguesWithTokens randomUUID).
Local Abbreviation lookup_row := (getByToken hasSupabase).
Local Abbreviation reveal := (post_assign hasSupabase Math_random randomUUID).
Local Abbreviation reveal_all :=
  (post_assign_all hasSupabase Math_random randomUUID).
Local Abbreviation after_load := (loaded randomUUID).
Local Abbreviation group := (people_of randomUUID).
Local Abbreviation settled := (complete hasSupabase).
Local Abbreviation steady := (reliable hasSupabase).
Local Abbreviation tick := (counted hasSupabase).

Lemma load_eq w : load w = (Return (group w), after_load w).
Proof. unfold people_of, loaded. rewrite !load_unfold. done. Qed.

Lemma loaded_colleagues w : colleagues_json (after_load w) = Some (participants w).
Proof.
  unfold loaded. rewrite load_unfold. simpl. unfold ensureState.
  rewrite <- (ensureDataDirAndSeed_colleagues w).
  by destruct (state_json (ensureDataDirAndSeed w)).
Qed.

Lemma ensureDataDirAndSeed_store w :
  assignments_json (ensureDataDirAndSeed w) = assignments_json w ∧
  table (ensureDataDirAndSeed w) = table w ∧
  draws_used (ensureDataDirAndSeed w) = draws_used w ∧
  generator_calls (ensureDataDirAndSeed w) = generator_calls w ∧
  db_error (ensureDataDirAndSeed w) = db_error w ∧
  db_requests (ensureDataDirAndSeed w) = db_requests w.
Proof.
  unfold ensureDataDirAndSeed.
  destruct (dir_exists w); simpl;
    by destruct (colleagues_json w), (seed_json w).
Qed.

Lemma loaded_store w :
  assignments_json (after_load w) = assignments_json w ∧
  table (after_load w) = table w ∧
  draws_used (after_load w) = draws_used w ∧
  generator_calls (after_load w) = generator_calls w.
Proof.
  destruct (ensureDataDirAndSeed_store w) as (Ha & Ht & Hd & Hg & _).
  unfold loaded. rewrite load_unfold. simpl. unfold ensureState.
  rewrite <- Ha, <- Ht, <- Hd, <- Hg.
  by destruct (state_json (ensureDataDirAndSeed w)).
Qed.

Lemma loaded_requests w :
  db_error (after_load w) = db_error w ∧
  db_requests (after_load w) = db_requests w.
Proof.
  destruct (ensureDataDirAndSeed_store w) as (_ & _ & _ & _ & He & Hr).
  unfold loaded. rewrite load_unfold. simpl. unfold ensureState.
  rewrite <- He, <- Hr.
  by destruct (state_json (ensureDataDirAndSeed w)).
Qed.

Lemma lookup_row_loaded w t : lookup_row t (after_load w) = lookup_row t w.
Proof.
  destruct (loaded_store w) as (Ha & Ht & _).
  destruct (loaded_requests w) as [He Hr].
  apply getByToken_ext; [done|done|]. by rewrite He, Hr.
Qed.

(** Two answered lookups of the same store agree. *)
Lemma lookup_row_answered w w' t :
  assignments_json w = assignments_json w' → table w = table w' →
  next_error hasSupabase w = None → next_error hasSupabase w' = None →
  lookup_row t w = lookup_row t w'.
Proof.
  unfold getByToken, getAllAssignments, next_error. intros -> ->.
  destruct hasSupabase; [|done]. by intros -> ->.
Qed.

Lemma tick_requests w : db_requests w ≤ db_requests (tick w).
Proof. rewrite counted_eq. simpl. destruct hasSupabase; lia. Qed.

Lemma generate_unfold people w :
  generate hasSupabase Math_random people w =
    match buildAssignments Math_random people w with
    | (Return rows, w') => save hasSupabase rows w'
    | (Throw m, w') => (Throw m, w')
    end.
Proof. reflexivity. Qed.

(** What a save request does: it is counted; then either it fails and the
    store is as before, or every row is stored. *)
Lemma save_cases rows w res w' :
  is_Some (colleagues_json w) →
  save hasSupabase rows w = (res, w') →
  colleagues_json w' = colleagues_json w ∧
  state_json w' = state_json w ∧
  generator_calls w' = generator_calls w ∧
  db_error w' = db_error w ∧
  db_requests w ≤ db_requests w' ∧
  ((∃ m, res = Throw m ∧
         assignments_json w' = assignments_json w ∧ table w' = table w) ∨
   (res = Return tt ∧
    ∀ t, t ∈ r_token <$> rows → stored hasSupabase t w')).
Proof.
  intros Hc. unfold save, bindM, throw_on_error.
  pose proof (tick_requests w) as Hle.
  assert (Hct : is_Some (colleagues_json (tick w)))
    by (by rewrite counted_eq).
  destruct (next_error hasSupabase w) as [m|].
  - intros [= <- <-]. rewrite counted_eq in Hle |- *. simpl in *.
    repeat split; try done. left. by exists m.
  - destruct res as [[]|m]; intros Hs.
    + destruct (saveAssignments_Return _ _ _ _ Hct Hs)
        as (H1 & _ & H3 & _ & _ & H6 & H7 & H8 & Hrw).
      rewrite H1, H3, H6, H7, H8. rewrite counted_eq in Hle |- *. simpl in *.
      repeat split; try done. by right.
    + apply (saveAssignments_Throw _ _ _ _ _ Hct) in Hs as ->.
      rewrite counted_eq in Hle |- *. simpl in *.
      repeat split; try done. left. by exists m.
Qed.

(** The handler, case by case. *)
Lemma reveal_cases tok w :
  tok ≠ ""%string →
  reveal (Some tok) w =
    match tokenToIndex (group w) !! tok with
    | None => (Status404 "invalid token"%string, after_load w)
    | Some _ =>
        match lookup_row tok w with
        | Some r =>
            (Status200 (find_assignee (group w)
                          (lookup_row tok (tick (after_load w)))),
             tick (tick (after_load w)))
        | None =>
            match generate hasSupabase Math_random (group w)
                    (tick (after_load w)) with
            | (Return _, w') =>
                (Status200 (find_assignee (group w) (lookup_row tok w')),
                 tick w')
            | (Throw m, w') => (Status500 m, w')
            end
        end
    end.
Proof.
  intros Htok. unfold post_assign. simpl.
  rewrite bool_decide_eq_false_2 by done.
  unfold assign_body, bindM at 1. rewrite load_eq.
  destruct (tokenToIndex (group w) !! tok) as [idx|]; [|done].
  unfold bindM, lookup, ret. rewrite lookup_row_loaded.
  destruct (lookup_row tok w) as [r|] eqn:Hr; [done|].
  by destruct (generate hasSupabase Math_random (group w) (tick (after_load w)))
    as [[[]|m] w'].
Qed.

Lemma reveal_falsy bt w :
  falsy bt = true → reveal bt w = (Status400 "token required"%string, w).
Proof. unfold post_assign. by intros ->. Qed.

(** ** Worlds that differ in the count of requests only *)

Lemma same_but_requests_refl w : same_but_requests w w.
Proof. split; [by rewrite set_requests_id|done]. Qed.

Lemma same_but_requests_trans w1 w2 w3 :
  same_but_requests w1 w2 → same_but_requests w2 w3 → same_but_requests w1 w3.
Proof.
  intros [H12 Hle12] [H23 Hle23]. split; [|lia].
  rewrite H23 at 1. rewrite H12 at 1. done.
Qed.

Lemma same_but_requests_tick w w' :
  same_but_requests w w' → same_but_requests w (tick w').
Proof.
  intros H. apply (same_but_requests_trans _ w'); [done|].
  split; [|apply tick_requests]. rewrite counted_eq. done.
Qed.

Lemma same_but_requests_complete w w' :
  same_but_requests w w' → settled w → settled w'.
Proof.
  intros [-> _] (l & tk & Hc & Hs & Hcov & Hrows).
  exists l, tk. by repeat split.
Qed.

Lemma same_but_requests_reliable w w' :
  same_but_requests w w' → steady w → steady w'.
Proof.
  intros [Heq Hle]. apply reliable_later; [|done]. by rewrite Heq.
Qed.

Lemma same_but_requests_group w w' :
  same_but_requests w w' → group w' = group w.
Proof.
  intros [-> _]. unfold people_of, loaded. rewrite !load_unfold. done.
Qed.

(** ** Complete worlds *)

Lemma complete_loaded w : settled w → after_load w = w ∧
  ∀ t, t ∈ token <$> group w → stored hasSupabase t w.
Proof.
  intros (l & tk & Hc & Hs & Hcov & Hrows).
  pose proof (load_settled randomUUID w l tk Hc Hs Hcov) as Hl.
  assert (Hw : after_load w = w) by (unfold loaded; by rewrite Hl).
  split; [done|]. intros t Ht.
  unfold people_of in Ht. rewrite Hw in Ht.
  unfold tokens_of, participants in Ht. rewrite Hs, Hc in Ht. simpl in Ht.
  apply list_elem_of_fmap in Ht as (p & -> & Hp).
  apply list_elem_of_fmap in Hp as (c & -> & Hc').
  by apply Hrows.
Qed.

(** In a complete world whose database answers, no request changes
    anything but the count of requests: the generator is not called and
    nothing is written. *)
Lemma reveal_complete bt w :
  settled w → steady w → same_but_requests w (reveal bt w).2.
Proof.
  intros Hw Hst. destruct (complete_loaded w Hw) as [Hl Hrows].
  destruct (falsy bt) eqn:Hf.
  { rewrite reveal_falsy by done. apply same_but_requests_refl. }
  apply falsy_false in Hf as (tok & -> & Htok).
  rewrite reveal_cases by done. rewrite Hl.
  destruct (tokenToIndex (group w) !! tok) as [idx|] eqn:Hi.
  2:{ apply same_but_requests_refl. }
  destruct (stored_getByToken hasSupabase tok w) as [r ->].
  - by apply reliable_next.
  - apply Hrows, tokenToIndex_is_Some. by eexists.
  - simpl. apply same_but_requests_tick, same_but_requests_tick,
      same_but_requests_refl.
Qed.

Lemma reveal_all_complete bts w :
  settled w → steady w → same_but_requests w (reveal_all bts w).2.
Proof.
  revert w. induction bts as [|bt bts IH]; intros w Hw Hst; simpl.
  { apply same_but_requests_refl. }
  pose proof (reveal_complete bt w Hw Hst) as Hb.
  destruct (reveal bt w) as [resp w']. simpl in Hb.
  specialize (IH w' (same_but_requests_complete _ _ Hb Hw)
                    (same_but_requests_reliable _ _ Hb Hst)).
  destruct (reveal_all bts w') as [resps w'']. simpl in *.
  by apply (same_but_requests_trans _ w').
Qed.

Lemma loaded_state w :
  state_json (after_load w) = Some (tokens_of (after_load w)).
Proof. unfold loaded, tokens_of. rewrite load_unfold. done. Qed.

Lemma loaded_tokens w :
  tokens_of (after_load w) =
    (assign_tokens randomUUID (participants w) (tokens_of w) (uuids_used w)).1.
Proof. unfold loaded, tokens_of at 1. rewrite load_unfold. done. Qed.

Lemma group_length w : length (group w) = length (participants w).
Proof. unfold people_of. by rewrite length_fmap. Qed.

(** What one generation does: the generator is called once; then either
    the call or the row building or the save fails and the store is as
    before, or all rows are stored. *)
Lemma generate_cases people w res w' :
  is_Some (colleagues_json w) →
  generate hasSupabase Math_random people w = (res, w') →
  colleagues_json w' = colleagues_json w ∧
  state_json w' = state_json w ∧
  generator_calls w' = generator_calls w ++ [length people] ∧
  db_error w' = db_error w ∧
  db_requests w ≤ db_requests w' ∧
  ((∃ m, res = Throw m ∧
         assignments_json w' = assignments_json w ∧ table w' = table w) ∨
   (res = Return tt ∧
    ∀ p, p ∈ people → stored hasSupabase (token p) w')).
Proof.
  intros Hc. rewrite generate_unfold, buildAssignments_unfold. cbv zeta.
  set (r := derangement Math_random (length people) (draws_used w)).
  set (wg := set_generator (next_draw r)
               (generator_calls w ++ [length people]) w).
  assert (Hcg : is_Some (colleagues_json wg)) by done.
  destruct (outcome r) as [perm|m].
  - destruct (assignment_rows people perm) as [rows|m] eqn:Hrows.
    + intros Hs.
      destruct (save_cases _ _ _ _ Hcg Hs)
        as (H1 & H2 & H3 & H4 & H5 & Hres).
      rewrite H1, H2, H3, H4. repeat split; try done.
      destruct Hres as [(m & -> & Ha & Ht)|[-> Hrw]].
      * left. exists m. by rewrite Ha, Ht.
      * right. split; [done|]. intros p Hp. apply Hrw.
        rewrite (push_rows_tokens _ _ _ _ _ Hrows).
        by apply list_elem_of_fmap_2.
    + intros [= <- <-]. repeat split; try done. left. by exists m.
  - intros [= <- <-]. repeat split; try done. left. by exists m.
Qed.

Section TruthyTokens.

Hypothesis randomUUID_truthy : ∀ k, randomUUID k ≠ ""%string.

(** A request that is answered with status 200 after a generation has
    generated the rows of the whole group, with one call of the generator,
    and leaves a complete world. *)
Lemma reveal_generates tok a w w' :
  lookup_row tok w = None →
  reveal (Some tok) w = (Status200 a, w') →
  settled w' ∧
  generator_calls w' = generator_calls w ++ [length (participants w)] ∧
  group w' = group w ∧
  db_error w' = db_error w ∧
  db_requests w ≤ db_requests w' ∧
  ∃ ws, db_requests w ≤ db_requests ws ∧
        w' = tick ws ∧ a = find_assignee (group w) (lookup_row tok ws).
Proof.
  intros Hnone Hrev.
  assert (Htok : tok ≠ ""%string).
  { intros ->. by rewrite reveal_falsy in Hrev. }
  rewrite reveal_cases, Hnone in Hrev by done.
  destruct (tokenToIndex (group w) !! tok) as [idx|]; [|done].
  destruct (generate hasSupabase Math_random (group w) (tick (after_load w)))
    as [[[]|m] ws] eqn:Hg; [|done].
  injection Hrev as <- <-.
  assert (Hct : is_Some (colleagues_json (tick (after_load w))))
    by (by rewrite counted_eq; simpl; rewrite loaded_colleagues).
  destruct (generate_cases _ _ _ _ Hct Hg)
    as (Hc & Hs & Hcalls & He & Hr & [(m & [=] & _)|[_ Hrows]]).
  pose proof (tick_requests (after_load w)) as Hle.
  rewrite counted_eq in Hc, Hs, Hcalls, He. simpl in Hc, Hs, Hcalls, He.
  rewrite loaded_colleagues in Hc. rewrite loaded_state in Hs.
  destruct (loaded_store w) as (_ & _ & _ & Hlc).
  destruct (loaded_requests w) as [Hle1 Hle2].
  rewrite Hlc, group_length in Hcalls.
  assert (Hset : settled ws).
  { exists (participants w), (tokens_of (after_load w)).
    split; [done|]. split; [done|]. split.
    - intros p Hp. rewrite loaded_tokens.
      by apply assign_tokens_covers.
    - intros p Hp. apply Hrows. unfold people_of.
      by apply list_elem_of_fmap_2. }
  assert (Hsame : same_but_requests ws (tick ws))
    by apply same_but_requests_tick, same_but_requests_refl.
  split; [by apply (same_but_requests_complete ws)|].
  split; [by rewrite counted_eq|].
  split.
  { rewrite (same_but_requests_group _ _ Hsame).
    destruct (complete_loaded ws Hset) as [Hl _].
    unfold people_of at 1. rewrite Hl. unfold tokens_of at 1, participants at 1.
    by rewrite Hs, Hc. }
  split; [rewrite counted_eq; simpl; congruence|].
  split.
  { pose proof (tick_requests ws). lia. }
  exists ws. split; [lia|done].
Qed.

(** The same when the database answers: it still does afterwards, and the
    answer is what a lookup in the world left behind finds. *)
Lemma reveal_generates_steady tok a w w' :
  steady w →
  lookup_row tok w = None →
  reveal (Some tok) w = (Status200 a, w') →
  settled w' ∧ steady w' ∧
  generator_calls w' = generator_calls w ++ [length (participants w)] ∧
  group w' = group w ∧
  tok ∈ token <$> group w ∧
  a = find_assignee (group w) (lookup_row tok w').
Proof.
  intros Hst Hnone Hrev.
  destruct (reveal_generates tok a w w' Hnone Hrev)
    as (Hset & Hcalls & Hgroup & He & Hr & ws & Hle & -> & ->).
  assert (Hst' : steady (tick ws)) by (by apply (reliable_later _ w)).
  assert (Hsts : steady ws).
  { apply (reliable_later _ w); [|done|done].
    rewrite counted_eq in He. done. }
  split; [done|]. split; [done|]. split; [done|]. split; [done|]. split.
  - assert (Htok : tok ≠ ""%string).
    { intros ->. by rewrite reveal_falsy in Hrev. }
    rewrite reveal_cases in Hrev by done.
    destruct (tokenToIndex (group w) !! tok) as [idx|] eqn:Hi; [|done].
    apply tokenToIndex_is_Some. by eexists.
  - f_equal. apply lookup_row_answered; try by apply reliable_next.
    all: by rewrite counted_eq.
Qed.

End TruthyTokens.

End Handler.

(** What a group of fewer than two participants gets for a request whose
    token has no stored assignment: the generator is reached only by the
    token of a group of one, and fails there. *)
Lemma reveal_small_cases (hasSupabase : bool) (Math_random : nat → unit_draw)
    (randomUUID : nat → string) (body_token : option string)
    (w w' : world) (resp : response) :
  length (participants w) < 2 →
  (∀ t, body_token = Some t → getByToken hasSupabase t w = None) →
  post_assign hasSupabase Math_random randomUUID body_token w = (resp, w') →
  (resp = Status400 "token required"%string ∧
   generator_calls w' = generator_calls w) ∨
  (resp = Status404 "invalid token"%string ∧
   generator_calls w' = generator_calls w) ∨
  (resp = Status500 failed_message ∧
   length (participants w) = 1 ∧
   generator_calls w' = generator_calls w ++ [1]).
Proof.
  intros Hlen Hnone Hrev.
  destruct (falsy body_token) eqn:Hf.
  { rewrite reveal_falsy in Hrev by done. injection Hrev as <- <-. by left. }
  apply falsy_false in Hf as (tok & -> & Htok).
  rewrite reveal_cases, (Hnone tok eq_refl) in Hrev by done.
  destruct (loaded_store randomUUID w) as (_ & _ & _ & Hc).
  destruct (tokenToIndex (people_of randomUUID w) !! tok) as [idx|] eqn:Hi.
  2:{ injection Hrev as <- <-. right. by left. }
  assert (Hin : tok ∈ token <$> people_of randomUUID w)
    by (apply tokenToIndex_is_Some; by eexists).
  pose proof (group_length randomUUID w) as Hgl.
  destruct (people_of randomUUID w) as [|only [|??]] eqn:Hg; simpl in Hgl;
    [by apply elem_of_nil in Hin| |lia].
  rewrite generate_unfold, buildAssignments_unfold in Hrev. cbv zeta in Hrev.
  change (length [only]) with 1 in Hrev. rewrite derangement_one in Hrev.
  cbn [outcome next_draw] in Hrev.
  injection Hrev as <- <-. rewrite counted_eq. simpl. rewrite Hc.
  right. right. by repeat split.
Qed.

Lemma reveal_failure_keeps_store hasSupabase Math_random randomUUID
    (body_token : option string) (w w' : world) (resp : response) :
  post_assign hasSupabase Math_random randomUUID body_token w = (resp, w') →
  (∀ a, resp ≠ Status200 a) →
  assignments_json w' = assignments_json w ∧ table w' = table w.
Proof.
  intros Hrev Hne.
  destruct (falsy body_token) eqn:Hf.
  { rewrite reveal_falsy in Hrev by done. by injection Hrev as <- <-. }
  apply falsy_false in Hf as (tok & -> & Htok).
  rewrite reveal_cases in Hrev by done.
  destruct (loaded_store randomUUID w) as (Ha & Ht & _ & _).
  destruct (tokenToIndex (people_of randomUUID w) !! tok) as [idx|].
  2:{ by injection Hrev as <- <-. }
  destruct (getByToken hasSupabase tok w) as [r|].
  { injection Hrev as <- <-. by edestruct Hne. }
  destruct (generate hasSupabase Math_random (people_of randomUUID w)
              (counted hasSupabase (loaded randomUUID w))) as [[[]|m] ws] eqn:Hg.
  { injection Hrev as <- <-. by edestruct Hne. }
  injection Hrev as <- <-.
  assert (Hct : is_Some (colleagues_json
                           (counted hasSupabase (loaded randomUUID w))))
    by (by rewrite counted_eq; simpl; rewrite loaded_colleagues).
  destruct (generate_cases hasSupabase Math_random _ _ _ _ Hct Hg)
    as (_ & _ & _ & _ & _ & [(m' & _ & Ha' & Ht')|[[=] _]]).
  rewrite Ha', Ht', counted_eq. simpl. by rewrite Ha, Ht.
Qed.

Lemma reveal_participants hasSupabase Math_random randomUUID
    (body_token : option string) (w : world) :
  participants (post_assign hasSupabase Math_random randomUUID body_token w).2
  = participants w.
Proof.
  destruct (falsy body_token) eqn:Hf; [by rewrite reveal_falsy|].
  apply falsy_false in Hf as (tok & -> & Htok).
  rewrite reveal_cases by done.
  assert (Hl : participants (loaded randomUUID w) = participants w).
  { unfold participants at 1. by rewrite loaded_colleagues. }
  destruct (tokenToIndex (people_of randomUUID w) !! tok) as [idx|]; [|done].
  destruct (getByToken hasSupabase tok w) as [r|].
  { rewrite !counted_eq. done. }
  destruct (generate hasSupabase Math_random (people_of randomUUID w)
              (counted hasSupabase (loaded randomUUID w))) as [res ws] eqn:Hg.
  assert (Hct : is_Some (colleagues_json
                           (counted hasSupabase (loaded randomUUID w))))
    by (by rewrite counted_eq; simpl; rewrite loaded_colleagues).
  destruct (generate_cases hasSupabase Math_random _ _ _ _ Hct Hg)
    as (Hc & _).
  rewrite counted_eq in Hc. simpl in Hc. rewrite loaded_colleagues in Hc.
  assert (participants ws = participants w)
    by (unfold participants at 1; by rewrite Hc).
  destruct res; [|done]. by rewrite counted_eq.
Qed.

(** A group of fewer than two participants that starts without stored
    assignments never gets one, whatever is requested. *)
Lemma small_group_never_stores hasSupabase Math_random randomUUID
    (requests : list (option string)) (w : world) :
  length (participants w) < 2 →
  (∀ t, ¬ stored hasSupabase t w) →
  let w' := (post_assign_all hasSupabase Math_random randomUUID requests w).2 in
  assignments_json w' = assignments_json w ∧ table w' = table w.
Proof.
  revert w. induction requests as [|bt requests IH]; intros w Hlen Hnone; [done|].
  simpl.
  assert (Hlookup : ∀ t, getByToken hasSupabase t w = None).
  { intros t. apply eq_None_not_Some. intros H.
    by apply (Hnone t), getByToken_stored. }
  pose proof (reveal_participants hasSupabase Math_random randomUUID bt w) as Hp.
  destruct (post_assign hasSupabase Math_random randomUUID bt w)
    as [resp w1] eqn:Hrev. simpl in Hp.
  destruct (reveal_failure_keeps_store hasSupabase Math_random randomUUID
              bt w w1 resp Hrev) as [Ha Ht].
  { intros a ->.
    by destruct (reveal_small_cases hasSupabase Math_random randomUUID bt w w1
                   _ Hlen ltac:(auto) Hrev) as [[? _]|[[? _]|[? _]]]. }
  destruct (IH w1) as [Ha' Ht'].
  - by rewrite Hp.
  - intros t Hst. apply (Hnone t). by apply (stored_ext hasSupabase t w w1).
  - destruct (post_assign_all hasSupabase Math_random randomUUID requests w1)
      as [resps w2]. simpl in *. by rewrite Ha', Ht'.
Qed.

(** ** The claims about the handlers *)

(** C2, as amended.  Let [randomUUID] yield non-empty strings and, with
    Supabase, let the database answer every request from the first reveal
    request on without error.  If a reveal request finds no stored
    assignment for its token and is answered with a receiver, then it has
    called the generator once, for the whole group, and through any
    sequence of further reveal requests (for this or any other token, valid
    or not) the world stays as that request left it up to the count of
    database requests — the generator is not called again, the store is
    not rewritten — and a request with the same token that follows them
    gets the identical answer. *)
Theorem reveal_idempotent (hasSupabase : bool) (Math_random : nat → unit_draw)
    (randomUUID : nat → string) (tok : string) (a : option person)
    (w0 w1 : world) (later : list (option string)) :
  (∀ k, randomUUID k ≠ ""%string) →
  reliable hasSupabase w0 →
  getByToken hasSupabase tok w0 = None →
  post_assign hasSupabase Math_random randomUUID (Some tok) w0 = (Status200 a, w1) →
  let w2 := (post_assign_all hasSupabase Math_random randomUUID later w1).2 in
  generator_calls w1 = generator_calls w0 ++ [length (participants w0)] ∧
  same_but_requests w1 w2 ∧
  generator_calls w2 = generator_calls w1 ∧
  assignments_json w2 = assignments_json w1 ∧
  table w2 = table w1 ∧
  ∃ w3,
    post_assign hasSupabase Math_random randomUUID (Some tok) w2
      = (Status200 a, w3) ∧
    same_but_requests w1 w3.
Proof.
  intros Htruthy Hst Hnone Hrev w2.
  destruct (reveal_generates_steady hasSupabase Math_random randomUUID Htruthy
              tok a w0 w1 Hst Hnone Hrev)
    as (Hset & Hst1 & Hcalls & Hgroup & Hin & Ha).
  pose proof (reveal_all_complete hasSupabase Math_random randomUUID
                later w1 Hset Hst1) as Hsame.
  fold w2 in Hsame.
  pose proof (same_but_requests_complete hasSupabase _ _ Hsame Hset) as Hset2.
  pose proof (same_but_requests_reliable hasSupabase _ _ Hsame Hst1) as Hst2.
  pose proof (same_but_requests_group randomUUID _ _ Hsame) as Hgroup2.
  split; [done|]. split; [done|].
  destruct Hsame as [Heq Hle].
  split; [by rewrite Heq|]. split; [by rewrite Heq|]. split; [by rewrite Heq|].
  assert (Htok : tok ≠ ""%string).
  { intros ->. by rewrite reveal_falsy in Hrev. }
  destruct (complete_loaded hasSupabase randomUUID w2 Hset2) as [Hl Hrows].
  rewrite reveal_cases by done. rewrite Hl, Hgroup2, Hgroup.
  destruct (tokenToIndex (people_of randomUUID w0) !! tok) as [idx|] eqn:Hi.
  2:{ apply tokenToIndex_None in Hi. by destruct Hi. }
  destruct (stored_getByToken hasSupabase tok w2) as [r ->].
  { by apply reliable_next. }
  { apply Hrows. by rewrite Hgroup2, Hgroup. }
  assert (Hsame3 : same_but_requests w1
                     (counted hasSupabase (counted hasSupabase w2))).
  { apply same_but_requests_tick, same_but_requests_tick. by split. }
  eexists. split; [|exact Hsame3]. f_equal. f_equal. rewrite Ha. f_equal.
  apply lookup_row_answered.
  - rewrite counted_eq. simpl. by rewrite Heq.
  - rewrite counted_eq. simpl. by rewrite Heq.
  - apply reliable_next, (reliable_later _ w2); [by rewrite counted_eq| |done].
    rewrite counted_eq. simpl. destruct hasSupabase; lia.
  - by apply reliable_next.
Qed.

(** The amended C2 for Alice, Bob and Carol on a fresh world with
    Supabase: Bob asks first, then Alice, an unknown token, nobody, and
    Carol, and then Bob again. *)
Lemma reveal_idempotent_witness :
  ∃ a w1,
    post_assign true (λ _, zero) sample_uuid (Some "u1"%string)
      (fresh_world alice_bob_carol) = (Status200 a, w1) ∧
    let w2 := (post_assign_all true (λ _, zero) sample_uuid
                 [Some "u0"; Some "zz"; None; Some "u2"]%string w1).2 in
    generator_calls w1 = [] ++ [3] ∧
    same_but_requests w1 w2 ∧
    generator_calls w2 = generator_calls w1 ∧
    assignments_json w2 = assignments_json w1 ∧
    table w2 = table w1 ∧
    ∃ w3,
      post_assign true (λ _, zero) sample_uuid (Some "u1"%string) w2
        = (Status200 a, w3) ∧
      same_but_requests w1 w3.
Proof.
  eexists _, _.
  refine ((λ Hrev, conj Hrev
             (reveal_idempotent true (λ _, zero) sample_uuid "u1"%string _
                (fresh_world alice_bob_carol) _
                [Some "u0"; Some "zz"; None; Some "u2"]%string
                sample_uuid_truthy (λ _ k _, eq_refl) eq_refl Hrev)) _).
  vm_compute. reflexivity.
Defined.

(** C2 fails as stated: on a fresh world with Alice and Bob, let the
    random source yield 1/2 two thousand times and 0 afterwards.  Alice's
    first request exhausts the generator and is answered with status 500;
    her second request, same token, is answered with Bob. *)
Lemma reveal_twice_differs :
  let w0 := fresh_world [sample_colleague "Alice"%string;
                         sample_colleague "Bob"%string] in
  let first := post_assign false flaky sample_uuid (Some "u0"%string) w0 in
  let second := post_assign false flaky sample_uuid (Some "u0"%string) first.2 in
  "u0"%string ∈ token <$> people_of sample_uuid w0 ∧
  first.1 = Status500 failed_message ∧
  second.1 = Status200 (Some bob) ∧
  first.1 ≠ second.1.
Proof.
  assert (H1 : (post_assign false flaky sample_uuid (Some "u0"%string)
                 (fresh_world [sample_colleague "Alice"%string;
                               sample_colleague "Bob"%string])).1
               = Status500 failed_message) by (vm_compute; reflexivity).
  assert (H2 : (post_assign false flaky sample_uuid (Some "u0"%string)
                 (post_assign false flaky sample_uuid (Some "u0"%string)
                   (fresh_world [sample_colleague "Alice"%string;
                                 sample_colleague "Bob"%string])).2).1
               = Status200 (Some bob)) by (vm_compute; reflexivity).
  cbv zeta. split; [|split; [exact H1|split; [exact H2|]]].
  - refine (bool_decide_unpack _ _). vm_compute. exact I.
  - rewrite H1, H2. discriminate.
Qed.

(** C9.  For a group of one participant, a reveal request carrying that
    participant's token (truthy, no assignment stored for it) is answered
    with status 500 and the generator's error as detail; the generator was
    called once, with 1, and the store — the local document and the table —
    is exactly as before. *)
Theorem reveal_single_fails (hasSupabase : bool) (Math_random : nat → unit_draw)
    (randomUUID : nat → string) (only : person) (w wl : world) :
  loadColleaguesWithTokens randomUUID w = (Return [only], wl) →
  token only ≠ ""%string →
  getByToken hasSupabase (token only) w = None →
  ∃ w',
    post_assign hasSupabase Math_random randomUUID (Some (token only)) w
      = (Status500 failed_message, w') ∧
    generator_calls w' = generator_calls w ++ [1] ∧
    assignments_json w' = assignments_json w ∧
    table w' = table w ∧
    getAllAssignments hasSupabase w' = getAllAssignments hasSupabase w.
Proof.
  intros Hload Htok Hnone.
  rewrite load_eq in Hload. injection Hload as Hgroup Hwl.
  rewrite reveal_cases, Hnone, Hgroup by done.
  destruct (tokenToIndex [only] !! token only) as [idx|] eqn:Hi.
  2:{ apply tokenToIndex_None in Hi. destruct Hi. simpl. by left. }
  rewrite generate_unfold, buildAssignments_unfold. cbv zeta.
  change (length [only]) with 1. rewrite derangement_one. cbn [outcome next_draw].
  destruct (loaded_store randomUUID w) as (Ha & Ht & _ & Hc).
  eexists. split; [reflexivity|]. rewrite counted_eq. simpl. rewrite Hc, Ha, Ht.
  repeat split; try done. by apply getAllAssignments_ext.
Qed.

(** C9 on a fresh world whose only participant is Alice. *)
Lemma reveal_single_fails_witness :
  ∃ w',
    post_assign true (λ _, zero) sample_uuid (Some "u0"%string)
      (fresh_world [sample_colleague "Alice"%string])
      = (Status500 failed_message, w') ∧
    generator_calls w' = [] ++ [1] ∧
    assignments_json w' = None ∧
    table w' = ∅ ∧
    getAllAssignments true w' = [].
Proof.
  refine (reveal_single_fails true (λ _, zero) sample_uuid
            {| who := sample_colleague "Alice"%string; token := "u0"%string |}
            (fresh_world [sample_colleague "Alice"%string]) _ _ _ _).
  - vm_compute. reflexivity.
  - simpl. discriminate.
  - vm_compute. reflexivity.
Defined.




Lemma elem_of_table_rows (t : gmap string pairing) (r : row) :
  r ∈ table_rows t ↔ t !! r_token r = Some (r_pairing r).
Proof.
  unfold table_rows. rewrite list_elem_of_fmap. split.
  - intros ([k p] & -> & Hkp). by apply elem_of_map_to_list in Hkp.
  - intros Hr. exists (r_token r, r_pairing r). split; [by destruct r|].
    by apply elem_of_map_to_list.
Qed.

Lemma filter_empty_key (t : gmap string pairing) :
  t !! ""%string = None →
  filter (λ kv : string * pairing, kv.1 = ""%string) t = ∅.
Proof.
  intros Hnone. apply map_empty. intros k.
  apply map_lookup_filter_None. destruct (decide (k = ""%string)) as [->|Hk].
  - by left.
  - right. intros p _. done.
Qed.

(** A reset answers ok exactly when the data directory exists and the
    delete request, if one is sent, comes back without error. *)
Lemma post_reset_ok hasSupabase w :
  (post_reset hasSupabase w).1 = ResetOk ↔
  dir_exists w = true ∧ next_error hasSupabase w = None.
Proof.
  unfold post_reset, next_error.
  destruct (dir_exists w); [|by split; [|intros [? _]]].
  destruct hasSupabase; simpl; [|done].
  destruct (db_error w (db_requests w)); simpl; by split; [|intros [_ ?]].
Qed.




(** * Further properties of the code *)

(** ** The generator *)

Lemma shuffles_next rnd n t arr k :
  (shuffles rnd n t arr k).2 = k + t * (n - 1).
Proof.
  revert arr k. induction t as [|t IH]; intros arr k; simpl; [lia|].
  pose proof (shuffle_next rnd (n - 1) arr k) as Hs.
  destruct (shuffle rnd (n - 1) arr k) as [arr' k']. simpl in Hs.
  rewrite IH. lia.
Qed.

Lemma tries_loop_first rnd n budget tries arr k t :
  t < budget →
  (∀ s, s < t → every_not_index (shuffles rnd n (S s) arr k).1 = false) →
  every_not_index (shuffles rnd n (S t) arr k).1 = true →
  tries_loop rnd n budget tries arr k =
    {| outcome := Return (shuffles rnd n (S t) arr k).1;
       attempts := tries + S t;
       next_draw := (shuffles rnd n (S t) arr k).2 |}.
Proof.
  revert tries arr k t.
  induction budget as [|b IH]; intros tries arr k t Ht Hbefore He; [lia|].
  assert (Hshift : ∀ s, shuffles rnd n (S s) arr k
                        = shuffles rnd n s (shuffle rnd (n - 1) arr k).1
                                           (shuffle rnd (n - 1) arr k).2).
  { intros s. cbn [shuffles]. by destruct (shuffle rnd (n - 1) arr k). }
  cbn [tries_loop]. rewrite Hshift in He |- *.
  pose proof (Hbefore 0) as H0. rewrite Hshift in H0.
  destruct (shuffle rnd (n - 1) arr k) as [arr' k'] eqn:Hs.
  cbn [fst snd] in *. destruct t as [|t].
  - cbn [shuffles fst snd] in He |- *. rewrite He. f_equal. lia.
  - cbn [shuffles fst] in H0. rewrite H0 by lia.
    rewrite (IH (S tries) arr' k' t); [f_equal; lia|lia| |done].
    intros s Hlt. specialize (Hbefore (S s) ltac:(lia)).
    by rewrite Hshift in Hbefore.
Qed.

(** X1.  [derangement n] throws exactly when every one of the 2000 arrays
    it checks has a fixed point. *)
Theorem derangement_throws_iff (Math_random : nat → unit_draw) (n k : nat) :
  outcome (derangement Math_random n k) = Throw failed_message ↔
  ∀ t, t < 2000 → every_not_index (attempt_array Math_random n t k) = false.
Proof.
  split.
  - intros Hthrow t Ht.
    destruct (every_not_index (attempt_array Math_random n t k)) eqn:He; [|done].
    destruct (tries_loop_returns Math_random n max_tries 0 (seq 0 n) k t Ht He)
      as [perm Hperm].
    unfold derangement in Hthrow. congruence.
  - intros Hall. by apply tries_loop_throws.
Qed.

(** X2.  If attempt number [t] (from 0, below 2000) is the first whose
    array has no fixed point, [derangement n] returns that array, having
    made [t + 1] attempts and taken [(t + 1) * (n - 1)] draws. *)
Theorem derangement_first_success (Math_random : nat → unit_draw) (n k t : nat) :
  t < 2000 →
  (∀ s, s < t → every_not_index (attempt_array Math_random n s k) = false) →
  every_not_index (attempt_array Math_random n t k) = true →
  derangement Math_random n k =
    {| outcome := Return (attempt_array Math_random n t k);
       attempts := S t;
       next_draw := k + S t * (n - 1) |}.
Proof.
  intros Ht Hbefore He. unfold derangement.
  rewrite (tries_loop_first Math_random n max_tries 0 (seq 0 n) k t Ht Hbefore He).
  by rewrite shuffles_next.
Qed.

(** X2 at [n = 3] with every draw 0. *)
Lemma derangement_first_success_witness :
  derangement (λ _, zero) 3 0 =
    {| outcome := Return (attempt_array (λ _, zero) 3 0 0);
       attempts := 1;
       next_draw := 0 + 1 * (3 - 1) |}.
Proof.
  apply (derangement_first_success (λ _, zero) 3 0 0).
  - lia.
  - intros s Hs. lia.
  - vm_compute. reflexivity.
Defined.

Lemma swap_lookup_other arr i j m :
  m ≠ i → m ≠ j → swap arr i j !! m = arr !! m.
Proof.
  intros Hi Hj. unfold swap.
  destruct (arr !! j), (arr !! i); try done.
  by rewrite !list_lookup_insert_ne.
Qed.

Lemma shuffle_above rnd i arr k m :
  i < m → (shuffle rnd i arr k).1 !! m = arr !! m.
Proof.
  revert arr k. induction i as [|i IH]; intros arr k Hm; [done|].
  cbn [shuffle]. rewrite IH by lia.
  apply swap_lookup_other; [lia|].
  pose proof (Math_floor_mul_le (rnd k) (S i)). lia.
Qed.

Lemma shuffle_length rnd i arr k : length (shuffle rnd i arr k).1 = length arr.
Proof.
  revert arr k. induction i as [|i IH]; intros arr k; [done|].
  cbn [shuffle]. by rewrite IH, swap_length.
Qed.

(** X3.  One shuffle entered at an index inside the array, for any random
    source: the result is a rearrangement of the array of the same length,
    the positions above the starting index are untouched, and exactly one
    draw is taken per index from the start down to 1. *)
Theorem shuffle_rearranges (Math_random : nat → unit_draw) (i : nat)
    (arr : list nat) (k : nat) :
  i < length arr →
  (shuffle Math_random i arr k).1 ≡ₚ arr ∧
  length (shuffle Math_random i arr k).1 = length arr ∧
  (∀ m, i < m → (shuffle Math_random i arr k).1 !! m = arr !! m) ∧
  (shuffle Math_random i arr k).2 = k + i.
Proof.
  intros _. split; [apply shuffle_Permutation|].
  split; [apply shuffle_length|].
  split; [intros m; apply shuffle_above|apply shuffle_next].
Qed.

Lemma shuffle_rearranges_witness :
  (shuffle (λ _, half) 2 [0; 1; 2; 3] 0).1 ≡ₚ [0; 1; 2; 3] ∧
  length (shuffle (λ _, half) 2 [0; 1; 2; 3] 0).1 = length [0; 1; 2; 3] ∧
  (∀ m, 2 < m → (shuffle (λ _, half) 2 [0; 1; 2; 3] 0).1 !! m
                 = [0; 1; 2; 3] !! m) ∧
  (shuffle (λ _, half) 2 [0; 1; 2; 3] 0).2 = 0 + 2.
Proof.
  apply (shuffle_rearranges (λ _, half) 2 [0; 1; 2; 3] 0). simpl. lia.
Defined.

(** X4.  For every [n >= 2], when every draw is 0 the first shuffle turns
    [0, n) into the rotation [1; ...; n - 1; 0], and [derangement n]
    returns it after one attempt and [n - 1] draws. *)
Theorem derangement_rotation (n k : nat) :
  2 ≤ n →
  derangement (λ _, zero) n k =
    {| outcome := Return (seq 1 (n - 1) ++ [0]);
       attempts := 1;
       next_draw := k + (n - 1) |}.
Proof.
  intros Hn. pose proof (attempt_array_zero n k Hn) as Ha.
  unfold derangement.
  rewrite (tries_loop_first (λ _, zero) n max_tries 0 (seq 0 n) k 0).
  - unfold attempt_array in Ha. rewrite Ha, shuffles_next. f_equal. lia.
  - unfold max_tries. lia.
  - intros s Hs. lia.
  - unfold attempt_array in Ha. rewrite Ha.
    destruct n as [|[|n]]; try lia.
    replace (S (S n) - 1) with (S n) by lia. apply every_not_index_rotation.
Qed.

Lemma derangement_rotation_witness :
  derangement (λ _, zero) 4 0 =
    {| outcome := Return (seq 1 (4 - 1) ++ [0]);
       attempts := 1;
       next_draw := 0 + (4 - 1) |}.
Proof. apply (derangement_rotation 4 0). lia. Defined.

Lemma Math_floor_mul_top n i :
  i < n → Math_floor_mul (top_draw n) (i + 1) = i.
Proof.
  intros Hi. unfold Math_floor_mul, denom, top_draw. simpl.
  replace (n - 1 + 0 + 1) with n by lia.
  symmetry. apply (Nat.div_unique _ _ _ (n - 1 - i)); nia.
Qed.

Lemma swap_same arr i : swap arr i i = arr.
Proof.
  unfold swap. destruct (arr !! i) as [a|] eqn:Ha; [|done].
  rewrite list_insert_insert_eq. by apply list_insert_id.
Qed.

Lemma shuffle_top n i arr k :
  i < n → (shuffle (λ _, top_draw n) i arr k).1 = arr.
Proof.
  revert arr k. induction i as [|i IH]; intros arr k Hi; [done|].
  cbn [shuffle]. rewrite Math_floor_mul_top by done.
  rewrite swap_same. apply IH. lia.
Qed.

Lemma shuffles_top n t arr k :
  1 ≤ n → (shuffles (λ _, top_draw n) n t arr k).1 = arr.
Proof.
  intros Hn. revert arr k. induction t as [|t IH]; intros arr k; [done|].
  cbn [shuffles].
  pose proof (shuffle_top n (n - 1) arr k ltac:(lia)) as Hs.
  destruct (shuffle (λ _, top_draw n) (n - 1) arr k) as [arr' k'].
  simpl in Hs. subst arr'. apply IH.
Qed.

(** X5.  For every [n >= 1] the call can fail: when every draw is
    [(n - 1) / n], each swap is of a position with itself, every attempt
    checks the identity, and [derangement n] throws after 2000 attempts. *)
Theorem derangement_can_fail (n k : nat) :
  1 ≤ n →
  outcome (derangement (λ _, top_draw n) n k) = Throw failed_message ∧
  attempts (derangement (λ _, top_draw n) n k) = 2000.
Proof.
  intros Hn.
  assert (Hthrow : outcome (derangement (λ _, top_draw n) n k)
                   = Throw failed_message).
  { apply tries_loop_throws. intros t _. rewrite shuffles_top by done.
    destruct n as [|n]; [lia|]. done. }
  split; [done|].
  destruct (tries_loop_sound (λ _, top_draw n) n max_tries 0 (seq 0 n) k)
    as (_ & _ & _ & [(p & Hp & _)|[_ Ha]]).
  - unfold derangement in Hthrow. congruence.
  - exact Ha.
Qed.

Lemma derangement_can_fail_witness :
  outcome (derangement (λ _, top_draw 5) 5 0) = Throw failed_message ∧
  attempts (derangement (λ _, top_draw 5) 5 0) = 2000.
Proof. apply (derangement_can_fail 5 0). lia. Defined.

(** ** The token registry *)

Lemma assign_tokens_counter randomUUID list tokens u :
  u ≤ (assign_tokens randomUUID list tokens u).2 ∧
  (assign_tokens randomUUID list tokens u).2 ≤ u + length list.
Proof.
  revert tokens u. induction list as [|p list IH]; intros tokens u; simpl; [lia|].
  destruct (no_token tokens (name p)).
  - destruct (IH (<[name p := randomUUID u]> tokens) (S u)). lia.
  - destruct (IH tokens u). lia.
Qed.

Lemma assign_tokens_origin randomUUID list tokens u n t :
  (assign_tokens randomUUID list tokens u).1 !! n = Some t →
  tokens !! n = Some t ∨
  ∃ j, u ≤ j ∧ j < (assign_tokens randomUUID list tokens u).2 ∧ t = randomUUID j.
Proof.
  revert tokens u. induction list as [|p list IH]; intros tokens u; simpl; [by left|].
  destruct (no_token tokens (name p)); [|apply IH].
  intros Hn. pose proof (assign_tokens_counter randomUUID list
                           (<[name p := randomUUID u]> tokens) (S u)) as [Hc _].
  destruct (IH _ _ Hn) as [Hl|(j & Hj & Hlt & ->)].
  - rewrite lookup_insert in Hl. case_decide.
    + injection Hl as <-. right. exists u. split; [lia|]. split; [lia|done].
    + by left.
  - right. exists j. split; [lia|]. by split.
Qed.


(** X7.  Let [randomUUID] yield non-empty strings.  Every participant a
    load returns whose name is not one that objects inherit carries a
    non-empty token, persisted under the participant's name; the token is
    the one persisted before when that was non-empty, and a UUID drawn
    during this load otherwise. *)
Theorem load_tokens (randomUUID : nat → string) (w w' : world)
    (people : list person) (p : person) :
  (∀ k, randomUUID k ≠ ""%string) →
  loadColleaguesWithTokens randomUUID w = (Return people, w') →
  p ∈ people →
  inherited_name (name (who p)) = false →
  token p ≠ ""%string ∧
  tokens_of w' !! name (who p) = Some (token p) ∧
  (∀ t, tokens_of w !! name (who p) = Some t → t ≠ ""%string → token p = t) ∧
  (tokens_of w !! name (who p) = Some (token p) ∨
   ∃ j, uuids_used w ≤ j ∧ j < uuids_used w' ∧ token p = randomUUID j).
Proof.
  intros Htruthy Hload Hp Hplain. rewrite load_unfold in Hload.
  injection Hload as <- <-.
  apply list_elem_of_fmap in Hp as (c & -> & Hc). simpl in *.
  change (tokens_of (set_state ?v ?u ?x)) with (default ∅ v). simpl.
  destruct (assign_tokens_covers_plain randomUUID Htruthy (participants w)
              (tokens_of w) (uuids_used w) c Hc Hplain) as (t & Ht & Hne).
  rewrite Ht. simpl.
  split; [done|]. split; [done|]. split.
  - intros t0 Ht0 Hne0.
    pose proof (assign_tokens_keeps randomUUID (participants w) _
                  (uuids_used w) _ _ Ht0 Hne0) as Hk.
    congruence.
  - by apply assign_tokens_origin.
Qed.

Lemma load_tokens_witness :
  token alice ≠ ""%string ∧
  tokens_of (loaded sample_uuid (fresh_world alice_bob_carol))
    !! name (who alice) = Some (token alice) ∧
  (∀ t, tokens_of (fresh_world alice_bob_carol) !! name (who alice) = Some t →
        t ≠ ""%string → token alice = t) ∧
  (tokens_of (fresh_world alice_bob_carol) !! name (who alice)
     = Some (token alice) ∨
   ∃ j, uuids_used (fresh_world alice_bob_carol) ≤ j ∧
        j < uuids_used (loaded sample_uuid (fresh_world alice_bob_carol)) ∧
        token alice = sample_uuid j).
Proof.
  apply (load_tokens sample_uuid (fresh_world alice_bob_carol)
           (loaded sample_uuid (fresh_world alice_bob_carol))
           [alice; bob; carol] alice).
  - exact sample_uuid_truthy.
  - vm_compute. reflexivity.
  - by left.
  - vm_compute. reflexivity.
Defined.

(** X8.  Let [randomUUID] yield non-empty strings.  A load that follows a
    load returns the same participants with the same tokens, draws no
    UUID and leaves the world exactly as it found it. *)
Theorem load_twice (randomUUID : nat → string) (w w' : world)
    (people : list person) :
  (∀ k, randomUUID k ≠ ""%string) →
  loadColleaguesWithTokens randomUUID w = (Return people, w') →
  loadColleaguesWithTokens randomUUID w' = (Return people, w').
Proof.
  intros Htruthy Hload. rewrite load_unfold in Hload.
  injection Hload as <- <-.
  apply load_settled.
  - simpl. unfold ensureState. rewrite <- (ensureDataDirAndSeed_colleagues w).
    by destruct (state_json (ensureDataDirAndSeed w)).
  - done.
  - intros p Hp. by apply assign_tokens_covers.
Qed.

Lemma load_twice_witness :
  loadColleaguesWithTokens sample_uuid
    (loaded sample_uuid (fresh_world alice_bob_carol))
  = (Return [alice; bob; carol],
     loaded sample_uuid (fresh_world alice_bob_carol)).
Proof.
  apply (load_twice sample_uuid (fresh_world alice_bob_carol)).
  - exact sample_uuid_truthy.
  - vm_compute. reflexivity.
Defined.

(** After a load the registry is settled: a further load returns the same
    participants and writes nothing. *)
Lemma load_loaded randomUUID w :
  (∀ k, randomUUID k ≠ ""%string) →
  loadColleaguesWithTokens randomUUID (loaded randomUUID w)
  = (Return (people_of randomUUID w), loaded randomUUID w).
Proof.
  intros Htruthy. unfold people_of.
  apply load_settled.
  - apply loaded_colleagues.
  - apply loaded_state.
  - intros p Hp. rewrite loaded_tokens. by apply assign_tokens_covers.
Qed.

Lemma people_of_loaded randomUUID w :
  (∀ k, randomUUID k ≠ ""%string) →
  people_of randomUUID (loaded randomUUID w) = people_of randomUUID w.
Proof.
  intros Htruthy.
  assert (Hl : loaded randomUUID (loaded randomUUID w) = loaded randomUUID w).
  { unfold loaded at 1. by rewrite load_loaded. }
  unfold people_of. rewrite Hl. f_equal.
  unfold participants at 1. by rewrite loaded_colleagues.
Qed.

Lemma people_of_truthy randomUUID w p :
  (∀ k, randomUUID k ≠ ""%string) →
  p ∈ people_of randomUUID w →
  inherited_name (name (who p)) = false →
  token p ≠ ""%string.
Proof.
  intros Htruthy Hp Hplain. unfold people_of in Hp.
  apply list_elem_of_fmap in Hp as (c & -> & Hc). simpl in *.
  rewrite loaded_tokens.
  by destruct (assign_tokens_covers_plain randomUUID Htruthy (participants w)
                 (tokens_of w) (uuids_used w) c Hc Hplain) as (t & -> & Hne).
Qed.

Lemma people_of_plain randomUUID w p :
  plain_names (participants w) →
  p ∈ people_of randomUUID w → inherited_name (name (who p)) = false.
Proof.
  intros Hplain Hp. unfold people_of in Hp.
  apply list_elem_of_fmap in Hp as (c & -> & Hc). by apply Hplain.
Qed.

(** A load reads the participant list, the registry and the UUID counter
    only. *)
Lemma load_ext randomUUID w1 w2 :
  colleagues_json w1 = colleagues_json w2 →
  seed_json w1 = seed_json w2 →
  state_json w1 = state_json w2 →
  uuids_used w1 = uuids_used w2 →
  people_of randomUUID w1 = people_of randomUUID w2.
Proof.
  intros Hc Hs Hst Hu. unfold people_of.
  rewrite !loaded_tokens. unfold participants, tokens_of.
  by rewrite Hc, Hs, Hst, Hu.
Qed.

(** ** The assignment store *)

Lemma find_token_Some (rows : list row) tok r :
  find (λ r, bool_decide (r_token r = tok)) rows = Some r →
  r ∈ rows ∧ r_token r = tok.
Proof.
  induction rows as [|r0 rows IH]; simpl; [done|].
  case_bool_decide as Heq.
  - intros [= <-]. split; [by left|done].
  - intros H. destruct (IH H). split; [by right|done].
Qed.

Lemma find_token_None (rows : list row) tok :
  find (λ r, bool_decide (r_token r = tok)) rows = None →
  ∀ r, r ∈ rows → r_token r ≠ tok.
Proof.
  induction rows as [|r0 rows IH]; simpl; [by intros _ r ?%elem_of_nil|].
  case_bool_decide as Heq; [done|].
  intros H r [->|Hr]%elem_of_cons; [done|by apply IH].
Qed.

(** X9.  Lookup and listing agree, with either backend: a row found for a
    token carries that token and is in the listing; when none is found and
    the lookup request was answered without error (as it always is with
    the local document), no listed row carries the token. *)
Theorem lookup_agrees_with_listing (hasSupabase : bool) (tok : string) (w : world) :
  match getByToken hasSupabase tok w with
  | Some r => r ∈ getAllAssignments hasSupabase w ∧ r_token r = tok
  | None =>
      next_error hasSupabase w = None →
      ∀ r, r ∈ getAllAssignments hasSupabase w → r_token r ≠ tok
  end.
Proof.
  unfold getByToken, next_error. destruct hasSupabase.
  - unfold getAllAssignments.
    destruct (db_error w (db_requests w)) as [m|]; [done|].
    destruct (table w !! tok) as [p|] eqn:Hp; simpl.
    + split; [|done]. by rewrite merge_sort_Permutation, elem_of_table_rows.
    + intros _ r. rewrite merge_sort_Permutation, elem_of_table_rows.
      intros Hr <-. congruence.
  - destruct (find _ (getAllAssignments false w)) as [r|] eqn:Hf.
    + by apply find_token_Some.
    + intros _. by apply find_token_None.
Qed.

Lemma upsert_fold_other (rows : list row) (t0 : gmap string pairing) tok :
  tok ∉ r_token <$> rows →
  foldl (λ t r, <[r_token r := r_pairing r]> t) t0 rows !! tok = t0 !! tok.
Proof.
  revert t0. induction rows as [|r rows IH]; intros t0 Hn; [done|].
  simpl in *. apply not_elem_of_cons in Hn as [Hne Hn].
  rewrite IH by done. by rewrite lookup_insert_ne.
Qed.

Lemma upsert_fold_lookup (rows : list row) (t0 : gmap string pairing) r :
  NoDup (r_token <$> rows) → r ∈ rows →
  foldl (λ t r, <[r_token r := r_pairing r]> t) t0 rows !! r_token r
  = Some (r_pairing r).
Proof.
  revert t0. induction rows as [|r0 rows IH]; intros t0 Hnd Hr.
  { by apply elem_of_nil in Hr. }
  simpl in *. apply NoDup_cons in Hnd as [Hfresh Hnd].
  apply elem_of_cons in Hr as [->|Hr]; [|by apply IH].
  rewrite upsert_fold_other by done. by rewrite lookup_insert_eq.
Qed.

Lemma find_token_lookup (rows : list row) r :
  NoDup (r_token <$> rows) → r ∈ rows →
  find (λ r', bool_decide (r_token r' = r_token r)) rows = Some r.
Proof.
  induction rows as [|r0 rows IH]; intros Hnd Hr.
  { by apply elem_of_nil in Hr. }
  simpl in *. apply NoDup_cons in Hnd as [Hfresh Hnd].
  apply elem_of_cons in Hr as [->|Hr]; [by rewrite bool_decide_eq_true_2|].
  rewrite bool_decide_eq_false_2; [by apply IH|].
  intros Heq. apply Hfresh. rewrite Heq. by apply list_elem_of_fmap_2.
Qed.

Lemma saveAssignments_lookup hasSupabase rows w w' w2 r :
  NoDup (r_token <$> rows) →
  saveAssignments hasSupabase rows w = (Return tt, w') →
  r ∈ rows →
  assignments_json w2 = assignments_json w' → table w2 = table w' →
  next_error hasSupabase w2 = None →
  getByToken hasSupabase (r_token r) w2 = Some r.
Proof.
  intros Hnd Hsave Hr Ha2 Ht2 Herr. unfold saveAssignments in Hsave.
  unfold getByToken, getAllAssignments, next_error in *. rewrite Ha2, Ht2.
  destruct hasSupabase.
  - unfold bindM, gets, lift, modify, upsert in Hsave.
    rewrite decide_True in Hsave by done. injection Hsave as <-. simpl in *.
    rewrite Herr, (upsert_fold_lookup _ _ _ Hnd Hr). simpl. by destruct r.
  - unfold bindM, modify in Hsave. injection Hsave as <-. simpl.
    by apply find_token_lookup.
Qed.

Lemma saveAssignments_NoDup hasSupabase rows w :
  NoDup (r_token <$> rows) →
  ∃ w', saveAssignments hasSupabase rows w = (Return tt, w').
Proof.
  intros Hnd. unfold saveAssignments. destruct hasSupabase.
  - unfold bindM, gets, lift, modify, upsert.
    rewrite decide_True by done. by eexists.
  - unfold bindM, modify. by eexists.
Qed.

(** X10.  Save, then look up.  Let the rows have pairwise distinct tokens.
    If the save request comes back with an error, the error is thrown and
    nothing but the count of requests changes.  Otherwise the rows are
    saved, by either backend, and afterwards every lookup of a saved token
    that is answered without error finds the saved row again, whole. *)
Theorem save_then_lookup (hasSupabase : bool) (rows : list row) (w : world) :
  NoDup (r_token <$> rows) →
  match next_error hasSupabase w with
  | Some m => save hasSupabase rows w = (Throw m, counted hasSupabase w)
  | None =>
      ∃ w',
        save hasSupabase rows w = (Return tt, w') ∧
        ∀ r, r ∈ rows → next_error hasSupabase w' = None →
             getByToken hasSupabase (r_token r) w' = Some r
  end.
Proof.
  intros Hnd. unfold save, bindM, throw_on_error.
  destruct (next_error hasSupabase w) as [m|]; [done|].
  destruct (saveAssignments_NoDup hasSupabase rows (counted hasSupabase w) Hnd)
    as [w' Hs].
  exists w'. split; [done|]. intros r Hr Herr.
  by apply (saveAssignments_lookup hasSupabase rows _ w' w' r Hnd Hs).
Qed.

Lemma save_then_lookup_witness :
  match next_error true filled_world with
  | Some m =>
      save true [make_row alice bob; make_row bob alice] filled_world
      = (Throw m, counted true filled_world)
  | None =>
      ∃ w',
        save true [make_row alice bob; make_row bob alice] filled_world
          = (Return tt, w') ∧
        ∀ r, r ∈ [make_row alice bob; make_row bob alice] →
             next_error true w' = None →
             getByToken true (r_token r) w' = Some r
  end.
Proof.
  apply (save_then_lookup true [make_row alice bob; make_row bob alice]
           filled_world).
  refine (bool_decide_unpack _ _). vm_compute. exact I.
Defined.

(** X11.  What a save does to the other tokens differs by backend.  After
    a successful save, a token that is not among the saved rows finds
    nothing with the local document, which the save replaces as a whole.
    With Supabase the upsert leaves the other rows alone: the table holds
    for the token what it held before, a lookup finds what a lookup found
    before when both are answered without error, and finds nothing when
    it comes back with an error. *)
Theorem save_other_tokens (hasSupabase : bool) (rows : list row)
    (w w' : world) (tok : string) :
  save hasSupabase rows w = (Return tt, w') →
  tok ∉ r_token <$> rows →
  (hasSupabase = false → getByToken hasSupabase tok w' = None) ∧
  (hasSupabase = true →
     table w' !! tok = table w !! tok ∧
     (next_error hasSupabase w = None → next_error hasSupabase w' = None →
      getByToken hasSupabase tok w' = getByToken hasSupabase tok w) ∧
     (next_error hasSupabase w' ≠ None →
      getByToken hasSupabase tok w' = None)).
Proof.
  intros Hsave Hn. unfold save, bindM, throw_on_error in Hsave.
  destruct (next_error hasSupabase w) as [m|] eqn:Hw; [done|].
  unfold saveAssignments in Hsave.
  unfold getByToken, getAllAssignments, next_error in *. destruct hasSupabase.
  - unfold bindM, gets, lift, modify, upsert in Hsave.
    destruct (decide (NoDup (r_token <$> rows))); [|done].
    injection Hsave as <-. simpl. split; [done|]. intros _.
    rewrite upsert_fold_other by done. split; [done|]. split.
    + intros _ ->. by rewrite Hw.
    + by destruct (db_error w (S (db_requests w))).
  - unfold bindM, modify in Hsave. injection Hsave as <-. simpl.
    split; [|done]. intros _.
    destruct (find _ rows) as [r|] eqn:Hf; [|done].
    apply find_token_Some in Hf as [Hr <-].
    destruct Hn. by apply list_elem_of_fmap_2.
Qed.

Lemma save_other_tokens_witness :
  let w' := (save true [make_row alice bob] filled_world).2 in
  (true = false → getByToken true "u2"%string w' = None) ∧
  (true = true →
     table w' !! "u2"%string = table filled_world !! "u2"%string ∧
     (next_error true filled_world = None → next_error true w' = None →
      getByToken true "u2"%string w' = getByToken true "u2"%string filled_world) ∧
     (next_error true w' ≠ None → getByToken true "u2"%string w' = None)).
Proof.
  cbv zeta.
  apply (save_other_tokens true [make_row alice bob] filled_world).
  - vm_compute. reflexivity.
  - vm_compute. intros H. by repeat (apply elem_of_cons in H as [H|H]; [discriminate|]);
      apply elem_of_nil in H.
Defined.



(** ** The reveal and reset handlers *)

Lemma find_person_Some (people : list person) tok :
  tok ∈ token <$> people →
  ∃ p, find (λ p, bool_decide (token p = tok)) people = Some p ∧
       p ∈ people ∧ token p = tok.
Proof.
  induction people as [|q people IH]; simpl; [by intros ?%elem_of_nil|].
  intros Hin. case_bool_decide as Heq.
  - exists q. split; [done|]. split; [by left|done].
  - apply elem_of_cons in Hin as [Hq|Hin]; [congruence|].
    destruct (IH Hin) as (p & Hf & Hp & Ht).
    exists p. split; [done|]. split; [by right|done].
Qed.

Lemma find_person_None (people : list person) tok :
  tok ∉ token <$> people →
  find (λ p, bool_decide (token p = tok)) people = None.
Proof.
  induction people as [|q people IH]; simpl; [done|].
  intros Hn. apply not_elem_of_cons in Hn as [Hne Hn].
  rewrite bool_decide_eq_false_2 by done. by apply IH.
Qed.

(** A generation that succeeds has drawn a derangement, built the rows
    over it and saved them with a request that was answered. *)
Lemma generate_Return hasSupabase Math_random people w ws :
  generate hasSupabase Math_random people w = (Return tt, ws) →
  ∃ perm rows,
    is_derangement (length people) perm ∧
    assignment_rows people perm = Return rows ∧
    saveAssignments hasSupabase rows
      (counted hasSupabase
         (set_generator
            (next_draw (derangement Math_random (length people) (draws_used w)))
            (generator_calls w ++ [length people]) w)) = (Return tt, ws).
Proof.
  rewrite generate_unfold, buildAssignments_unfold. cbv zeta.
  destruct (tries_loop_sound Math_random (length people) max_tries 0
              (seq 0 (length people)) (draws_used w))
    as (_ & _ & _ & [(perm & Hp & Hperm & Hfix)|[Hthrow _]]).
  - unfold derangement. rewrite Hp.
    destruct (assignment_rows people perm) as [rows|m] eqn:Hrows; [|done].
    unfold save, bindM, throw_on_error.
    destruct (next_error hasSupabase _); [done|].
    intros Hsave. exists perm, rows. by repeat split.
  - unfold derangement. rewrite Hthrow. done.
Qed.

(** What a request leaves when it finds no row for its token and is
    answered with status 200.  The answer is what the second lookup, made
    in the world [ws] the save has left, finds. *)
Lemma reveal_generated_rows hasSupabase Math_random randomUUID tok a w w' :
  NoDup (token <$> people_of randomUUID w) →
  getByToken hasSupabase tok w = None →
  post_assign hasSupabase Math_random randomUUID (Some tok) w = (Status200 a, w') →
  ∃ rows ws,
    tok ∈ token <$> people_of randomUUID w ∧
    w' = counted hasSupabase ws ∧
    db_error ws = db_error w ∧
    db_requests w ≤ db_requests ws ∧
    a = find_assignee (people_of randomUUID w) (getByToken hasSupabase tok ws) ∧
    length rows = length (people_of randomUUID w) ∧
    r_token <$> rows = token <$> people_of randomUUID w ∧
    (λ r, receiver_token (r_pairing r)) <$> rows
      ≡ₚ token <$> people_of randomUUID w ∧
    (∀ r, r ∈ rows → r_token r ≠ receiver_token (r_pairing r)) ∧
    (∀ r w2, r ∈ rows →
       assignments_json w2 = assignments_json ws → table w2 = table ws →
       next_error hasSupabase w2 = None →
       getByToken hasSupabase (r_token r) w2 = Some r) ∧
    (hasSupabase = false → getAllAssignments hasSupabase w' = rows).
Proof.
  intros Hnd Hnone Hrev.
  assert (Htok : tok ≠ ""%string).
  { intros ->. by rewrite reveal_falsy in Hrev. }
  rewrite reveal_cases, Hnone in Hrev by done.
  destruct (tokenToIndex (people_of randomUUID w) !! tok) as [idx|] eqn:Hi;
    [|done].
  destruct (generate hasSupabase Math_random (people_of randomUUID w)
              (counted hasSupabase (loaded randomUUID w)))
    as [[[]|m] ws] eqn:Hg; [|done].
  injection Hrev as <- <-.
  assert (Hct : is_Some (colleagues_json
                           (counted hasSupabase (loaded randomUUID w))))
    by (by rewrite counted_eq; simpl; rewrite loaded_colleagues).
  destruct (generate_cases _ _ _ _ _ _ Hct Hg) as (_ & _ & _ & He & Hr & _).
  destruct (loaded_requests randomUUID w) as [He0 Hr0].
  pose proof (tick_requests hasSupabase (loaded randomUUID w)) as Hle.
  rewrite counted_eq in He. simpl in He.
  destruct (generate_Return _ _ _ _ _ Hg) as (perm & rows & Hd & Hrows & Hsave).
  destruct (assignment_rows_bijection _ perm Hnd Hd)
    as (rows' & Hrows' & Hlen & Htoks & Hrec & Hself).
  assert (rows' = rows) as -> by congruence.
  assert (Hndr : NoDup (r_token <$> rows)) by (by rewrite Htoks).
  exists rows, ws. split; [apply tokenToIndex_is_Some; by eexists|].
  split; [done|]. split; [congruence|]. split; [lia|].
  repeat split; try done.
  - intros r w2 Hr2 Ha2 Ht2 Herr.
    by apply (saveAssignments_lookup hasSupabase rows _ ws w2 r Hndr Hsave).
  - intros ->. rewrite counted_eq. simpl.
    unfold saveAssignments, bindM, modify in Hsave.
    by injection Hsave as <-.
Qed.
(** X13.  A request with a non-empty token is answered 404 exactly when no
    participant holds the token; the load it has made is then its only
    effect. *)
Theorem reveal_unknown_token (hasSupabase : bool) (Math_random : nat → unit_draw)
    (randomUUID : nat → string) (tok : string) (w : world) :
  tok ≠ ""%string →
  ((post_assign hasSupabase Math_random randomUUID (Some tok) w).1
     = Status404 "invalid token"%string
   ↔ tok ∉ token <$> people_of randomUUID w) ∧
  (tok ∉ token <$> people_of randomUUID w →
   (post_assign hasSupabase Math_random randomUUID (Some tok) w).2
     = loaded randomUUID w).
Proof.
  intros Htok. rewrite reveal_cases by done.
  destruct (tokenToIndex (people_of randomUUID w) !! tok) as [idx|] eqn:Hi.
  - assert (Hin : tok ∈ token <$> people_of randomUUID w)
      by (apply tokenToIndex_is_Some; by eexists).
    split; [|done]. split; [|done].
    destruct (getByToken hasSupabase tok w); [done|].
    by destruct (generate _ _ _ _) as [[[]|?] ?].
  - apply tokenToIndex_None in Hi. done.
Qed.

Lemma reveal_unknown_token_witness :
  ((post_assign false (λ _, zero) sample_uuid (Some "zz"%string)
      (fresh_world alice_bob_carol)).1 = Status404 "invalid token"%string
   ↔ "zz"%string ∉ token <$> people_of sample_uuid (fresh_world alice_bob_carol)) ∧
  ("zz"%string ∉ token <$> people_of sample_uuid (fresh_world alice_bob_carol) →
   (post_assign false (λ _, zero) sample_uuid (Some "zz"%string)
      (fresh_world alice_bob_carol)).2
     = loaded sample_uuid (fresh_world alice_bob_carol)).
Proof.
  apply (reveal_unknown_token false (λ _, zero) sample_uuid "zz"%string
           (fresh_world alice_bob_carol)).
  discriminate.
Defined.



(** X15.  Nobody draws themselves.  Let no participant bear a name that
    objects inherit, let the participants' tokens be pairwise distinct
    and, with Supabase, let the database answer every request from this
    one on without error.  When a request that finds no row for its token
    is answered 200, the answer names a participant, and that
    participant's token is not the requester's. *)
Theorem reveal_never_self (hasSupabase : bool) (Math_random : nat → unit_draw)
    (randomUUID : nat → string) (tok : string) (a : option person)
    (w w' : world) :
  plain_names (participants w) →
  NoDup (token <$> people_of randomUUID w) →
  reliable hasSupabase w →
  getByToken hasSupabase tok w = None →
  post_assign hasSupabase Math_random randomUUID (Some tok) w = (Status200 a, w') →
  ∃ p, a = Some p ∧ p ∈ people_of randomUUID w ∧ token p ≠ tok.
Proof.
  intros _ Hnd Hst Hnone Hrev.
  destruct (reveal_generated_rows _ _ _ _ _ _ _ Hnd Hnone Hrev)
    as (rows & ws & Hin & _ & He & Hle & -> & _ & Htoks & Hrec & Hself & Hlook & _).
  rewrite <- Htoks in Hin. apply list_elem_of_fmap in Hin as (r & -> & Hr).
  rewrite (Hlook r ws Hr eq_refl eq_refl).
  2:{ by apply reliable_next, (reliable_later _ w). }
  simpl.
  destruct (find_person_Some (people_of randomUUID w)
              (receiver_token (r_pairing r))) as (p & Hf & Hp & Ht).
  { rewrite <- Hrec. by apply (list_elem_of_fmap_2 (λ r, receiver_token (r_pairing r))). }
  exists p. split; [done|]. split; [done|].
  rewrite Ht. intros Heq. by apply (Hself r Hr).
Qed.

Lemma reveal_never_self_witness :
  ∃ p, Some bob = Some p ∧
       p ∈ people_of sample_uuid (fresh_world alice_bob_carol) ∧
       token p ≠ "u0"%string.
Proof.
  apply (reveal_never_self true (λ _, zero) sample_uuid "u0"%string (Some bob)
           (fresh_world alice_bob_carol)
           (post_assign true (λ _, zero) sample_uuid (Some "u0"%string)
              (fresh_world alice_bob_carol)).2).
  - intros c Hc. by repeat (apply elem_of_cons in Hc as [->|Hc]; [vm_compute; reflexivity|]);
      apply elem_of_nil in Hc.
  - refine (bool_decide_unpack _ _). vm_compute. exact I.
  - intros _ k _. reflexivity.
  - vm_compute. reflexivity.
  - vm_compute. reflexivity.
Defined.

(** X16.  The generated set is a perfect matching.  Let no participant
    bear a name that objects inherit and let the participants' tokens be
    pairwise distinct.  A request that finds no row for its token and is
    answered 200 has stored one row per participant: the giver tokens are
    the participants' tokens in order, the receiver tokens a rearrangement
    of them, no row pairs a token with itself, every row is found again,
    whole, by every lookup of its giver token that is answered without
    error while the store is as the request left it, and with the local
    document the listing is exactly these rows. *)
Theorem reveal_stores_matching (hasSupabase : bool) (Math_random : nat → unit_draw)
    (randomUUID : nat → string) (tok : string) (a : option person)
    (w w' : world) :
  plain_names (participants w) →
  NoDup (token <$> people_of randomUUID w) →
  getByToken hasSupabase tok w = None →
  post_assign hasSupabase Math_random randomUUID (Some tok) w = (Status200 a, w') →
  ∃ rows,
    length rows = length (participants w) ∧
    r_token <$> rows = token <$> people_of randomUUID w ∧
    (λ r, receiver_token (r_pairing r)) <$> rows
      ≡ₚ token <$> people_of randomUUID w ∧
    (∀ r, r ∈ rows → r_token r ≠ receiver_token (r_pairing r)) ∧
    (∀ r w2, r ∈ rows →
       assignments_json w2 = assignments_json w' → table w2 = table w' →
       next_error hasSupabase w2 = None →
       getByToken hasSupabase (r_token r) w2 = Some r) ∧
    (hasSupabase = false → getAllAssignments hasSupabase w' = rows).
Proof.
  intros _ Hnd Hnone Hrev.
  destruct (reveal_generated_rows _ _ _ _ _ _ _ Hnd Hnone Hrev)
    as (rows & ws & _ & -> & _ & _ & _ & Hlen & Htoks & Hrec & Hself & Hlook & Hall).
  exists rows. split; [by rewrite Hlen, group_length|].
  repeat split; try done.
  intros r w2 Hr Ha2 Ht2. rewrite counted_eq in Ha2, Ht2. by apply Hlook.
Qed.

Lemma reveal_stores_matching_witness :
  ∃ rows,
    length rows = length (participants (fresh_world alice_bob_carol)) ∧
    r_token <$> rows
      = token <$> people_of sample_uuid (fresh_world alice_bob_carol) ∧
    (λ r, receiver_token (r_pairing r)) <$> rows
      ≡ₚ token <$> people_of sample_uuid (fresh_world alice_bob_carol) ∧
    (∀ r, r ∈ rows → r_token r ≠ receiver_token (r_pairing r)) ∧
    (∀ r w2, r ∈ rows →
       assignments_json w2
       = assignments_json
           (post_assign true (λ _, zero) sample_uuid (Some "u2"%string)
              (fresh_world alice_bob_carol)).2 →
       table w2
       = table (post_assign true (λ _, zero) sample_uuid (Some "u2"%string)
                  (fresh_world alice_bob_carol)).2 →
       next_error true w2 = None →
       getByToken true (r_token r) w2 = Some r) ∧
    (true = false →
       getAllAssignments true
         (post_assign true (λ _, zero) sample_uuid (Some "u2"%string)
            (fresh_world alice_bob_carol)).2 = rows).
Proof.
  apply (reveal_stores_matching true (λ _, zero) sample_uuid "u2"%string
           (Some alice) (fresh_world alice_bob_carol)).
  - intros c Hc. by repeat (apply elem_of_cons in Hc as [->|Hc]; [vm_compute; reflexivity|]);
      apply elem_of_nil in Hc.
  - refine (bool_decide_unpack _ _). vm_compute. exact I.
  - vm_compute. reflexivity.
  - vm_compute. reflexivity.
Defined.

(** X17.  Requests that fail leave the store alone: if none of a sequence
    of reveal requests is answered 200, the local document and the table
    are at the end what they were at the start. *)
Theorem failures_keep_store (hasSupabase : bool) (Math_random : nat → unit_draw)
    (randomUUID : nat → string) (requests : list (option string)) (w : world) :
  Forall (λ resp, ∀ a, resp ≠ Status200 a)
         (post_assign_all hasSupabase Math_random randomUUID requests w).1 →
  assignments_json
    (post_assign_all hasSupabase Math_random randomUUID requests w).2
  = assignments_json w ∧
  table (post_assign_all hasSupabase Math_random randomUUID requests w).2
  = table w.
Proof.
  revert w. induction requests as [|bt requests IH]; intros w; [done|].
  simpl.
  destruct (post_assign hasSupabase Math_random randomUUID bt w)
    as [resp w1] eqn:Hrev.
  specialize (IH w1).
  destruct (post_assign_all hasSupabase Math_random randomUUID requests w1)
    as [resps w2]. simpl in *.
  intros [Hresp Hresps]%Forall_cons.
  destruct (reveal_failure_keeps_store _ _ _ _ _ _ _ Hrev Hresp) as [Ha Ht].
  destruct (IH Hresps) as [Ha' Ht']. by rewrite Ha', Ht'.
Qed.

Lemma failures_keep_store_witness :
  assignments_json
    (post_assign_all false (λ _, half) sample_uuid
       [Some "u0"; None; Some "zz"]%string (fresh_world alice_bob_carol)).2
  = assignments_json (fresh_world alice_bob_carol) ∧
  table
    (post_assign_all false (λ _, half) sample_uuid
       [Some "u0"; None; Some "zz"]%string (fresh_world alice_bob_carol)).2
  = table (fresh_world alice_bob_carol).
Proof.
  apply (failures_keep_store false (λ _, half) sample_uuid
           [Some "u0"; None; Some "zz"]%string (fresh_world alice_bob_carol)).
  vm_compute. repeat constructor; discriminate.
Defined.

(** X18.  No sequence of reveal requests and no reset changes the list of
    participants. *)
Theorem participants_stable (hasSupabase : bool) (Math_random : nat → unit_draw)
    (randomUUID : nat → string) (requests : list (option string)) (w : world) :
  participants (post_assign_all hasSupabase Math_random randomUUID requests w).2
  = participants w ∧
  participants (post_reset hasSupabase w).2 = participants w.
Proof.
  split.
  - revert w. induction requests as [|bt requests IH]; intros w; [done|].
    simpl.
    pose proof (reveal_participants hasSupabase Math_random randomUUID bt w) as Hp.
    destruct (post_assign hasSupabase Math_random randomUUID bt w) as [resp w1].
    specialize (IH w1).
    destruct (post_assign_all hasSupabase Math_random randomUUID requests w1)
      as [resps w2]. simpl in *. congruence.
  - unfold post_reset, participants.
    destruct (dir_exists w); [|done]. destruct hasSupabase; [|done]. simpl.
    by destruct (db_error w (db_requests w)).
Qed.

(** X19.  A reset keeps the registry: the participants and their tokens
    are after the reset what they were before, so the links handed out
    stay good. *)
Theorem reset_keeps_tokens (hasSupabase : bool) (randomUUID : nat → string)
    (w : world) :
  state_json (post_reset hasSupabase w).2 = state_json w ∧
  uuids_used (post_reset hasSupabase w).2 = uuids_used w ∧
  people_of randomUUID (post_reset hasSupabase w).2 = people_of randomUUID w.
Proof.
  assert (H : colleagues_json (post_reset hasSupabase w).2 = colleagues_json w ∧
              seed_json (post_reset hasSupabase w).2 = seed_json w ∧
              state_json (post_reset hasSupabase w).2 = state_json w ∧
              uuids_used (post_reset hasSupabase w).2 = uuids_used w).
  { unfold post_reset.
    destruct (dir_exists w); [|done]. destruct hasSupabase; [|done]. simpl.
    by destruct (db_error w (db_requests w)). }
  destruct H as (Hc & Hs & Hst & Hu).
  split; [done|]. split; [done|]. by apply load_ext.
Qed.

(** X20.  A reset is idempotent: after a reset that answered ok, a second
    reset changes nothing but the count of requests — the local document
    and the table stay as the first left them — and it answers ok exactly
    when its delete request, if one is sent, comes back without error. *)
Theorem reset_twice (hasSupabase : bool) (w : world) :
  (post_reset hasSupabase w).1 = ResetOk →
  let w1 := (post_reset hasSupabase w).2 in
  same_but_requests w1 (post_reset hasSupabase w1).2 ∧
  assignments_json (post_reset hasSupabase w1).2 = assignments_json w1 ∧
  table (post_reset hasSupabase w1).2 = table w1 ∧
  ((post_reset hasSupabase w1).1 = ResetOk ↔ next_error hasSupabase w1 = None).
Proof.
  intros Hok w1.
  assert (Hdoc : assignments_json w1 = Some []).
  { subst w1. revert Hok. unfold post_reset.
    destruct (dir_exists w); [|done]. destruct hasSupabase; [|done].
    simpl. by destruct (db_error w (db_requests w)). }
  assert (Hdir : dir_exists w1 = true).
  { unfold dir_exists. rewrite Hdoc. simpl. by rewrite !orb_true_r. }
  assert (Hfilter : hasSupabase = true →
            filter (λ kv : string * pairing, kv.1 = ""%string) (table w1)
            = table w1).
  { intros ->. subst w1. revert Hok. unfold post_reset.
    destruct (dir_exists w); [|done]. simpl.
    destruct (db_error w (db_requests w)); [done|]. simpl. intros _.
    apply map_eq. intros tok. apply option_eq. intros p.
    rewrite !map_lookup_filter_Some. simpl. tauto. }
  clearbody w1.
  assert (Hid : set_assignments (Some []) w1 = w1).
  { destruct w1. simpl in *. by rewrite Hdoc. }
  assert (Hsame : same_but_requests w1 (post_reset hasSupabase w1).2).
  { unfold post_reset. rewrite Hdir, Hid. destruct hasSupabase.
    - destruct (db_error w1 (db_requests w1)); simpl.
      + split; [reflexivity|simpl; lia].
      + rewrite Hfilter by done. split; [by destruct w1|simpl; lia].
    - apply same_but_requests_refl. }
  split; [done|]. destruct Hsame as [Heq _].
  split; [by rewrite Heq|]. split; [by rewrite Heq|].
  rewrite post_reset_ok, Hdir. tauto.
Qed.

Lemma reset_twice_witness :
  let w1 := (post_reset true filled_world).2 in
  same_but_requests w1 (post_reset true w1).2 ∧
  assignments_json (post_reset true w1).2 = assignments_json w1 ∧
  table (post_reset true w1).2 = table w1 ∧
  ((post_reset true w1).1 = ResetOk ↔ next_error true w1 = None).
Proof.
  apply (reset_twice true filled_world).
  vm_compute. reflexivity.
Defined.

(** ** The other routes *)

Lemma string_app_assoc (a b c : string) : (a +:+ b) +:+ c = a +:+ (b +:+ c).
Proof.
  induction a as [|x a IH]; [reflexivity|].
  change (String x ((a +:+ b) +:+ c) = String x (a +:+ (b +:+ c))).
  by rewrite IH.
Qed.

Lemma string_app_nil_r (a : string) : a +:+ "" = a.
Proof.
  induction a as [|x a IH]; [reflexivity|].
  change (String x (a +:+ "") = String x a). by rewrite IH.
Qed.

Lemma whoami_unfold randomUUID tok w :
  get_whoami randomUUID tok w =
    (Return (match find (λ p, bool_decide (token p = tok)) (people_of randomUUID w) with
             | Some me => WhoamiOk me
             | None => Whoami404 "invalid token"%string
             end), loaded randomUUID w).
Proof.
  unfold get_whoami, bindM. rewrite load_eq.
  by destruct (find _ (people_of randomUUID w)).
Qed.

(** X21.  [whoami] always answers: with the first participant holding the
    token, who then does hold it, or with 404 when no participant holds
    it.  Beyond its load it has no effect. *)
Theorem whoami_answer (randomUUID : nat → string) (tok : string) (w : world) :
  (get_whoami randomUUID tok w).2 = loaded randomUUID w ∧
  ((∃ me, (get_whoami randomUUID tok w).1 = Return (WhoamiOk me) ∧
          me ∈ people_of randomUUID w ∧ token me = tok) ∨
   ((get_whoami randomUUID tok w).1 = Return (Whoami404 "invalid token"%string) ∧
    tok ∉ token <$> people_of randomUUID w)).
Proof.
  rewrite whoami_unfold. split; [done|]. simpl.
  destruct (decide (tok ∈ token <$> people_of randomUUID w)) as [Hin|Hout].
  - destruct (find_person_Some _ _ Hin) as (me & -> & Hme & Ht).
    left. by exists me.
  - rewrite (find_person_None _ _ Hout). by right.
Qed.

(** X22.  [whoami] and the reveal handler have the same notion of a valid
    token: for a non-empty token, one answers 404 exactly when the other
    does. *)
Theorem whoami_agrees_with_reveal (hasSupabase : bool)
    (Math_random : nat → unit_draw) (randomUUID : nat → string)
    (tok : string) (w : world) :
  tok ≠ ""%string →
  (get_whoami randomUUID tok w).1 = Return (Whoami404 "invalid token"%string)
  ↔ (post_assign hasSupabase Math_random randomUUID (Some tok) w).1
    = Status404 "invalid token"%string.
Proof.
  intros Htok. rewrite whoami_unfold, reveal_cases by done. simpl.
  destruct (tokenToIndex (people_of randomUUID w) !! tok) as [idx|] eqn:Hi.
  - assert (Hin : tok ∈ token <$> people_of randomUUID w)
      by (apply tokenToIndex_is_Some; by eexists).
    destruct (find_person_Some _ _ Hin) as (me & -> & _).
    split; [done|].
    destruct (getByToken hasSupabase tok w); [done|].
    by destruct (generate _ _ _ _) as [[[]|?] ?].
  - apply tokenToIndex_None in Hi. by rewrite (find_person_None _ _ Hi).
Qed.

Lemma whoami_agrees_with_reveal_witness :
  (get_whoami sample_uuid "u7"%string (fresh_world alice_bob_carol)).1
    = Return (Whoami404 "invalid token"%string)
  ↔ (post_assign true (λ _, zero) sample_uuid (Some "u7"%string)
       (fresh_world alice_bob_carol)).1 = Status404 "invalid token"%string.
Proof.
  apply (whoami_agrees_with_reveal true (λ _, zero) sample_uuid "u7"%string
           (fresh_world alice_bob_carol)).
  discriminate.
Defined.




(** X24.  Let [randomUUID] yield non-empty strings.  Every token the links
    export has written for a participant whose name is not one that
    objects inherit is good afterwards: [whoami] answers with a
    participant holding it, and the reveal handler answers neither 400 nor
    404. *)
Theorem links_are_valid (hasSupabase : bool) (Math_random : nat → unit_draw)
    (randomUUID : nat → string) (w : world) (p : person) :
  (∀ k, randomUUID k ≠ ""%string) →
  p ∈ people_of randomUUID w →
  inherited_name (name (who p)) = false →
  let w' := (get_links_csv randomUUID w).2 in
  (∃ me, (get_whoami randomUUID (token p) w').1 = Return (WhoamiOk me) ∧
         token me = token p) ∧
  (post_assign hasSupabase Math_random randomUUID (Some (token p)) w').1
    ≠ Status400 "token required"%string ∧
  (post_assign hasSupabase Math_random randomUUID (Some (token p)) w').1
    ≠ Status404 "invalid token"%string.
Proof.
  intros Htruthy Hp Hplain w'.
  assert (Hw' : w' = loaded randomUUID w).
  { unfold w', get_links_csv, bindM. by rewrite load_eq. }
  assert (Hpeople : people_of randomUUID w' = people_of randomUUID w).
  { rewrite Hw'. by apply people_of_loaded. }
  assert (Hin : token p ∈ token <$> people_of randomUUID w')
    by (rewrite Hpeople; by apply list_elem_of_fmap_2).
  pose proof (people_of_truthy randomUUID w p Htruthy Hp Hplain) as Htok.
  split.
  - rewrite whoami_unfold. simpl.
    destruct (find_person_Some _ _ Hin) as (me & -> & _ & Ht). by exists me.
  - rewrite reveal_cases by done.
    apply tokenToIndex_is_Some in Hin as [idx ->].
    destruct (getByToken hasSupabase (token p) w'); [done|].
    by destruct (generate _ _ _ _) as [[[]|?] ?].
Qed.

Lemma links_are_valid_witness :
  let w' := (get_links_csv sample_uuid (fresh_world alice_bob_carol)).2 in
  (∃ me, (get_whoami sample_uuid (token bob) w').1 = Return (WhoamiOk me) ∧
         token me = token bob) ∧
  (post_assign false (λ _, zero) sample_uuid (Some (token bob)) w').1
    ≠ Status400 "token required"%string ∧
  (post_assign false (λ _, zero) sample_uuid (Some (token bob)) w').1
    ≠ Status404 "invalid token"%string.
Proof.
  apply (links_are_valid false (λ _, zero) sample_uuid
           (fresh_world alice_bob_carol) bob).
  - exact sample_uuid_truthy.
  - vm_compute. right. by left.
  - vm_compute. reflexivity.
Defined.

Lemma tokenToPerson_fold (people : list person) (m : gmap string person) tok p :
  foldl (λ m p, <[token p := p]> m) m people !! tok = Some p →
  m !! tok = Some p ∨ (p ∈ people ∧ token p = tok).
Proof.
  revert m. induction people as [|q people IH]; intros m; simpl; [by left|].
  intros H. destruct (IH _ H) as [Hm|[Hp Ht]].
  - rewrite lookup_insert in Hm. case_decide.
    + injection Hm as <-. right. split; [by left|done].
    + by left.
  - right. split; [by right|done].
Qed.

Lemma tokenToPerson_Some (people : list person) tok p :
  tokenToPerson people !! tok = Some p → p ∈ people ∧ token p = tok.
Proof.
  intros H. apply tokenToPerson_fold in H as [H|H]; [|done].
  by rewrite lookup_empty in H.
Qed.

Lemma export_fold_prefix known (rows : list row) (csv : string) :
  ∃ rest, foldl (export_step known) csv rows = csv +:+ rest.
Proof.
  revert csv. induction rows as [|r rows IH]; intros csv; simpl.
  - exists ""%string. by rewrite string_app_nil_r.
  - destruct (IH (export_step known csv r)) as [rest ->].
    unfold export_step.
    destruct (known !! r_token r) as [g|];
      [destruct (known !! receiver_token (r_pairing r)) as [rc|]|].
    + exists (export_line g rc +:+ rest). apply string_app_assoc.
    + by exists rest.
    + by exists rest.
Qed.

Lemma export_fold_skips known (rows : list row) (csv : string) :
  (∀ r, r ∈ rows → known !! r_token r = None ∨
                    known !! receiver_token (r_pairing r) = None) →
  foldl (export_step known) csv rows = csv.
Proof.
  revert csv. induction rows as [|r rows IH]; intros csv H; [done|].
  simpl. rewrite IH by (intros r' Hr'; apply H; by right).
  unfold export_step. destruct (H r ltac:(by left)) as [-> | ->]; [done|].
  by destruct (known !! r_token r).
Qed.

(** X25.  The export skips a row whose giver token or receiver token no
    participant holds: the text is the one the rows with both tokens
    known give. *)
Theorem export_skips_unknown (people : list person) (rows : list row) :
  export_csv people rows =
    export_csv people
      (filter (λ r, is_Some (tokenToPerson people !! r_token r) ∧
                    is_Some (tokenToPerson people !! receiver_token (r_pairing r)))
              rows).
Proof.
  unfold export_csv. generalize export_header as csv.
  induction rows as [|r rows IH]; intros csv; [done|].
  rewrite filter_cons. simpl. case_decide as Hk.
  - simpl. apply IH.
  - rewrite <- IH. f_equal. unfold export_step.
    destruct (tokenToPerson people !! r_token r) as [g|]; [|done].
    destruct (tokenToPerson people !! receiver_token (r_pairing r)) as [rc|];
      [|done].
    destruct Hk. split; by eexists.
Qed.

(** X26.  The export holds a line for every listed row whose two tokens
    are held by participants: giver and receiver with their dates, and the
    giver's link. *)
Theorem export_csv_lines (people : list person) (rows : list row)
    (r : row) (giver receiver : person) :
  r ∈ rows →
  tokenToPerson people !! r_token r = Some giver →
  tokenToPerson people !! receiver_token (r_pairing r) = Some receiver →
  ∃ before after,
    export_csv people rows
    = before +:+ export_line giver receiver +:+ after.
Proof.
  unfold export_csv. generalize export_header as csv.
  induction rows as [|r0 rows IH]; intros csv Hr Hg Hrc.
  { by apply elem_of_nil in Hr. }
  simpl. apply elem_of_cons in Hr as [<-|Hr]; [|by apply IH].
  unfold export_step at 2. rewrite Hg, Hrc.
  destruct (export_fold_prefix (tokenToPerson people) rows
              (csv +:+ export_line giver receiver)) as [rest ->].
  exists csv, rest. apply string_app_assoc.
Qed.

Lemma export_csv_lines_witness :
  ∃ before after,
    export_csv [alice; bob] [make_row alice bob; make_row bob alice]
    = before +:+ export_line bob alice +:+ after.
Proof.
  apply (export_csv_lines [alice; bob] [make_row alice bob; make_row bob alice]
           (make_row bob alice) bob alice).
  - right. by left.
  - vm_compute. reflexivity.
  - vm_compute. reflexivity.
Defined.

(** X27.  Right after a reset that answered ok, on a store none of whose
    rows has the empty string as token, the export is the bare header
    line, with either backend, when its listing request is answered
    without error (as it always is with the local document); when the
    request comes back with an error, the export answers with status 500
    and the error. *)
Theorem export_after_reset (hasSupabase : bool) (randomUUID : nat → string)
    (w : world) :
  (post_reset hasSupabase w).1 = ResetOk →
  table w !! ""%string = None →
  let w' := (post_reset hasSupabase w).2 in
  (get_export_csv hasSupabase randomUUID w').1
  = match next_error hasSupabase w' with
    | None => ExportOk export_header
    | Some m => Export500 ("failed: " +:+ m)
    end.
Proof.
  intros Hok Hempty w'.
  assert (Hlist : getAllAssignments hasSupabase w' = []).
  { subst w'. revert Hok. unfold post_reset, getAllAssignments.
    destruct (dir_exists w); [|done]. destruct hasSupabase; [|done]. simpl.
    destruct (db_error w (db_requests w)); [done|]. simpl. intros _.
    by rewrite filter_empty_key. }
  clearbody w'.
  unfold get_export_csv, export_body, bindM, gets, ret, throw_on_error.
  rewrite load_eq.
  destruct (loaded_store randomUUID w') as (Ha & Htb & _).
  destruct (loaded_requests randomUUID w') as [He Hq].
  assert (Herr : next_error hasSupabase (loaded randomUUID w')
                 = next_error hasSupabase w')
    by (unfold next_error; by rewrite He, Hq).
  rewrite Herr. destruct (next_error hasSupabase w') as [m|]; [done|].
  simpl. f_equal.
  rewrite (getAllAssignments_ext hasSupabase _ w').
  - by rewrite Hlist.
  - by rewrite counted_eq.
  - by rewrite counted_eq.
Qed.

Lemma export_after_reset_witness :
  let w' := (post_reset true filled_world).2 in
  (get_export_csv true sample_uuid w').1
  = match next_error true w' with
    | None => ExportOk export_header
    | Some m => Export500 ("failed: " +:+ m)
    end.
Proof.
  apply (export_after_reset true sample_uuid filled_world).
  - vm_compute. reflexivity.
  - vm_compute. reflexivity.
Defined.

(** ** What the handlers can store *)

Lemma save_table hasSupabase rows w res w' t :
  save hasSupabase rows w = (res, w') →
  is_Some (table w' !! t) →
  is_Some (table w !! t) ∨ t ∈ r_token <$> rows.
Proof.
  unfold save, bindM, throw_on_error.
  destruct (next_error hasSupabase w).
  { intros [= <- <-]. rewrite counted_eq. by left. }
  unfold saveAssignments. destruct hasSupabase.
  - unfold bindM, gets, lift, modify, upsert.
    destruct (decide (NoDup (r_token <$> rows))).
    + intros [= <- <-]. simpl. by rewrite upsert_fold_is_Some.
    + intros [= <- <-]. by left.
  - unfold bindM, modify. intros [= <- <-]. simpl.
    destruct (ensureDataDirAndSeed_store w) as (_ & -> & _). by left.
Qed.

Lemma generate_table hasSupabase Math_random people w res w' t :
  generate hasSupabase Math_random people w = (res, w') →
  is_Some (table w' !! t) →
  is_Some (table w !! t) ∨ t ∈ token <$> people.
Proof.
  rewrite generate_unfold, buildAssignments_unfold. cbv zeta.
  destruct (outcome _) as [perm|m].
  - destruct (assignment_rows people perm) as [rows|m] eqn:Hrows.
    + intros Hs Ht. apply (save_table _ _ _ _ _ _ Hs) in Ht.
      by rewrite (push_rows_tokens _ _ _ _ _ Hrows) in Ht.
    + intros [= <- <-]. by left.
  - intros [= <- <-]. by left.
Qed.

Lemma reveal_table hasSupabase Math_random randomUUID bt w t :
  is_Some (table (post_assign hasSupabase Math_random randomUUID bt w).2 !! t) →
  is_Some (table w !! t) ∨ t ∈ token <$> people_of randomUUID w.
Proof.
  destruct (falsy bt) eqn:Hf.
  { rewrite reveal_falsy by done. by left. }
  apply falsy_false in Hf as (tok & -> & Htok).
  rewrite reveal_cases by done.
  destruct (loaded_store randomUUID w) as (_ & Ht & _).
  destruct (tokenToIndex (people_of randomUUID w) !! tok) as [idx|].
  2:{ simpl. rewrite Ht. by left. }
  destruct (getByToken hasSupabase tok w) as [r|].
  { rewrite !counted_eq. simpl. rewrite Ht. by left. }
  destruct (generate hasSupabase Math_random (people_of randomUUID w)
              (counted hasSupabase (loaded randomUUID w))) as [res ws] eqn:Hg.
  intros Hs.
  assert (Hws : is_Some (table ws !! t)).
  { destruct res; [|done]. by rewrite counted_eq in Hs. }
  apply (generate_table _ _ _ _ _ _ _ Hg) in Hws.
  rewrite counted_eq in Hws. simpl in Hws. by rewrite Ht in Hws.
Qed.

(** X28.  Rows are stored under participants' tokens only.  Let
    [randomUUID] yield non-empty strings and let no participant bear a name
    that objects inherit.  A table without a row under the empty string
    has none after any sequence of reveal requests, and none after a reset
    that follows them. *)
Theorem no_empty_token_row (hasSupabase : bool) (Math_random : nat → unit_draw)
    (randomUUID : nat → string) (requests : list (option string)) (w : world) :
  (∀ k, randomUUID k ≠ ""%string) →
  plain_names (participants w) →
  table w !! ""%string = None →
  let w' := (post_assign_all hasSupabase Math_random randomUUID requests w).2 in
  table w' !! ""%string = None ∧
  table (post_reset hasSupabase w').2 !! ""%string = None.
Proof.
  intros Htruthy. revert w.
  assert (Hall : ∀ w, plain_names (participants w) →
            table w !! ""%string = None →
            table (post_assign_all hasSupabase Math_random randomUUID
                     requests w).2 !! ""%string = None).
  { induction requests as [|bt requests IH]; intros w Hplain Hempty; [done|].
    simpl.
    pose proof (reveal_participants hasSupabase Math_random randomUUID bt w)
      as Hp.
    pose proof (reveal_table hasSupabase Math_random randomUUID bt w
                  ""%string) as Ht.
    destruct (post_assign hasSupabase Math_random randomUUID bt w)
      as [resp w1]. simpl in Hp, Ht.
    specialize (IH w1).
    destruct (post_assign_all hasSupabase Math_random randomUUID requests w1)
      as [resps w2]. simpl in *.
    apply IH; [by rewrite Hp|].
    apply eq_None_not_Some. intros Hs.
    destruct (Ht Hs) as [Hw|Hin].
    - rewrite Hempty in Hw. by destruct Hw.
    - apply list_elem_of_fmap in Hin as (p & Heq & Hin).
      by apply (people_of_truthy randomUUID w p Htruthy Hin
                  (people_of_plain randomUUID w p Hplain Hin)). }
  intros w Hplain Hempty w'. specialize (Hall w Hplain Hempty). fold w' in Hall.
  split; [done|]. clearbody w'. unfold post_reset.
  destruct (dir_exists w'); [|done]. destruct hasSupabase; [|done]. simpl.
  destruct (db_error w' (db_requests w')); [done|]. simpl.
  apply map_lookup_filter_None. by left.
Qed.

Lemma no_empty_token_row_witness :
  let w' := (post_assign_all true (λ _, zero) sample_uuid
               [Some "u1"; None; Some "u0"]%string
               (fresh_world alice_bob_carol)).2 in
  table w' !! ""%string = None ∧
  table (post_reset true w').2 !! ""%string = None.
Proof.
  apply (no_empty_token_row true (λ _, zero) sample_uuid
           [Some "u1"; None; Some "u0"]%string (fresh_world alice_bob_carol)).
  - exact sample_uuid_truthy.
  - intros c Hc. by repeat (apply elem_of_cons in Hc as [->|Hc]; [vm_compute; reflexivity|]);
      apply elem_of_nil in Hc.
  - vm_compute. reflexivity.
Defined.

(** X29.  A name that objects inherit gets no token.  While the registry
    has no entry of its own under such a name, a load persists none under
    it, whatever the participant list holds. *)
Theorem load_skips_inherited (randomUUID : nat → string) (w : world)
    (n : string) :
  inherited_name n = true →
  tokens_of w !! n = None →
  tokens_of (loaded randomUUID w) !! n = None.
Proof.
  intros Hi Hnone. rewrite loaded_tokens.
  by apply assign_tokens_keeps_inherited.
Qed.

Lemma load_skips_inherited_witness :
  tokens_of (loaded sample_uuid
               (fresh_world [sample_colleague "constructor"%string;
                             sample_colleague "Bob"%string]))
    !! "constructor"%string = None.
Proof.
  apply (load_skips_inherited sample_uuid
           (fresh_world [sample_colleague "constructor"%string;
                         sample_colleague "Bob"%string]) "constructor"%string).
  - vm_compute. reflexivity.
  - vm_compute. reflexivity.
Defined.
